(** * nand_graph: a shallow embedding of [graph.py]

    The development follows the source file top to bottom: the exception
    classes, [Node], the [NAND] gate with its widening loop, the [Graph]
    (a set of nodes and a dictionary of destination sets, both keyed by
    object identity), the string primitives [parse_input] relies on
    ([re.search] for the one pattern of the program, [str.replace],
    [str.split], [int], [str]) and finally [parse_input] itself.

    Conventions of the embedding.
    - Python integers are [Z]; [~], [&], [abs] and [**] are [Z.lnot],
      [Z.land], [Z.abs] and [Z.pow].  The conversions [int] and [str]
      refuse more than 4300 digits, the default of
      [sys.int_max_str_digits] in CPython 3.11.
    - A Python [str] is a [list ascii]; a character stands for the code
      point of the same number (U+0000 to U+00FF).
    - [Node] defines neither [__eq__] nor [__hash__], so the set and
      the dictionary of a [Graph] compare nodes by object identity.  An
      object is immutable once built, hence a node is the pair of its
      identity and its value, and Rocq equality on such pairs is Python's
      [is].
    - An exception is a value of [exn]; a computation yields an [outcome].
      The two [while] loops take a bound on their number of iterations and
      yield [OutOfFuel] when it is exhausted; the bounds used are proved
      sufficient.
    - Of a call of [print] only the conversion of its arguments to text
      is kept: printing an integer runs [str] on it; what is written is
      not part of the embedding. *)

From Stdlib Require Import ZArith Lia Ascii String List DecimalString DecimalPos.
From stdpp Require Import base decidable countable gmap list.

Import ListNotations.

(** ** Exceptions and outcomes *)

Abbreviation text := (list ascii).

(** The payload of a [ValueError]: the three messages of [graph.py] and
    the two of the built-in conversions [int] and [str]. *)
Inductive value_error : Type :=
  | NodeAlreadyExists              (* 'Node already exists' *)
  | NoNodeWithValue                (* 'No Node exists with the given value' *)
  | NodesNotPresent                (* 'Nodes not present in the Graph!' *)
  | InvalidLiteral (lit : text)    (* invalid literal for int() with base 10 *)
  | DigitLimit.                    (* Exceeds the limit (4300 digits) for integer
                                      string conversion *)

Inductive exn (K : Type) : Type :=
  | ValueError (why : value_error)
  | KeyError (key : K)
  | IndexError
  | TypeError (msg : string)
  | InvalidInputError (msg : string).
Arguments ValueError {K} why.
Arguments KeyError {K} key.
Arguments IndexError {K}.
Arguments TypeError {K} msg.
Arguments InvalidInputError {K} msg.

Inductive outcome (K A : Type) : Type :=
  | Return (a : A)
  | Raise (e : exn K)
  | OutOfFuel.
Arguments Return {K A} a.
Arguments Raise {K A} e.
Arguments OutOfFuel {K A}.

#[global] Instance outcome_bind {K} : MBind (outcome K) := λ A B f m,
  match m with
  | Return a => f a
  | Raise e => Raise e
  | OutOfFuel => OutOfFuel
  end.

(** [class InvalidInputError(ValueError)]: its [__init__] runs
    [super(InvalidInputError).__init__(message)].  The one-argument
    [super] is an unbound super object, so the call re-initialises that
    object with [message] where a class is expected and raises
    [TypeError]. *)
Definition InvalidInputError_init {K} (message : string) : outcome K unit :=
  Raise (TypeError "super() argument 1 must be type, not str").

(** The statement [raise InvalidInputError(message)]: the instance is
    built first (running [__init__]) and raised afterwards. *)
Definition raise_InvalidInputError {K A} (message : string) : outcome K A :=
  _ ← InvalidInputError_init message;
  Raise (InvalidInputError message).

(** ** Node *)

Record Node : Type := mkNode {
  ident : nat;   (* the identity of the object, Python's [id] *)
  value : Z      (* [self._value] *)
}.

#[global] Instance Node_eq_dec : EqDecision Node.
Proof. solve_decision. Defined.

#[global] Instance Node_countable : Countable Node.
Proof.
  apply (inj_countable' (λ n, (ident n, value n)) (λ p, mkNode p.1 p.2)).
  by intros [].
Defined.

Abbreviation result := (outcome Node).

(** ** NAND *)

Record NAND : Type := mkNAND {
  input_a : Node;
  input_b : Node;
  _output : option Node   (* [None] until the output has been computed *)
}.

(** [NAND(input_a, input_b)] *)
Definition NAND_init (a b : Node) : NAND := mkNAND a b None.

Section Widening.
Local Open Scope Z_scope.

(** The loop of [_compute]:
    [while True: if abs(and_result) < 2 ** bits: break else: bits *= 2]. *)
Fixpoint widen (fuel : nat) (and_result bits : Z) : option Z :=
  match fuel with
  | O => None
  | S fuel' =>
      if Z.abs and_result <? 2 ^ bits then Some bits
      else widen fuel' and_result (bits * 2)
  end.

(** A number of iterations that always suffices (see [widen_terminates]). *)
Definition widen_fuel (and_result : Z) : nat :=
  S (Z.to_nat (Z.log2 (Z.abs and_result))).

(** [_compute], for a gate whose output is not cached: the value of the
    output node. *)
Definition NAND_value (a b : Z) : option Z :=
  let and_result := Z.lnot (Z.land a b) in
  match widen (widen_fuel and_result) and_result 4 with
  | Some bits => Some (2 ^ bits - Z.abs and_result)
  | None => None
  end.
End Widening.

(** The property [output], with [_compute] unfolded in it: a cached
    output is returned as it is; otherwise the output node is built, with
    identity [fresh], and cached.  The gate is returned as well, since
    reading the property may fill the cache. *)
Definition NAND_output (fresh : nat) (self : NAND) : result (Node * NAND) :=
  match _output self with
  | Some out => Return (out, self)
  | None =>
      match NAND_value (value (input_a self)) (value (input_b self)) with
      | Some v =>
          let out := mkNode fresh v in
          Return (out, mkNAND (input_a self) (input_b self) (Some out))
      | None => OutOfFuel
      end
  end.

(** [reset] *)
Definition NAND_reset (self : NAND) : NAND :=
  mkNAND (input_a self) (input_b self) None.

(** ** Graph *)

Record Graph : Type := mkGraph {
  _nodes : gset Node;               (* [self._nodes = set()] *)
  _edges : gmap Node (gset Node)    (* [self._edges = {}] *)
}.

(** [Graph()] *)
Definition Graph_init : Graph := mkGraph ∅ ∅.

(** [has_node]: a scan of the set, comparing values. *)
Definition has_node (self : Graph) (node : Node) : bool :=
  existsb (λ i, bool_decide (value i = value node)) (elements (_nodes self)).

(** [get_node]: the first node of the scan that holds [v].  The order of
    the scan is that of [elements]; it only matters when two stored nodes
    hold the same value, which [add_node] never lets happen
    (see [add_node_unique_values]). *)
Definition get_node (self : Graph) (v : Z) : result Node :=
  match List.find (λ node, bool_decide (value node = v)) (elements (_nodes self)) with
  | Some node => Return node
  | None => Raise (ValueError NoNodeWithValue)
  end.

(** [add_node] *)
Definition add_node (self : Graph) (node : Node) (ignore_errors : bool) : result Graph :=
  if has_node self node then
    if bool_decide (ignore_errors = false) then Raise (ValueError NodeAlreadyExists)
    else Return self
  else
    Return (mkGraph ({[node]} ∪ _nodes self) (<[node := ∅]> (_edges self))).

(** [add_edge]: [self.edges[source]] is a dictionary access by identity
    and raises [KeyError] when [source] is not a key. *)
Definition add_edge (self : Graph) (edge : NAND) : result Graph :=
  let source := input_a edge in
  let destination := input_b edge in
  if negb (has_node self source && has_node self destination) then
    Raise (ValueError NodesNotPresent)
  else
    match _edges self !! source with
    | None => Raise (KeyError source)
    | Some dests =>
        if bool_decide (destination ∉ dests) then
          Return (mkGraph (_nodes self) (<[source := {[destination]} ∪ dests]> (_edges self)))
        else Return self
    end.

(** ** Text primitives *)

Section Text.
Local Open Scope char_scope.

(** [\d] of a [str] pattern: the decimal digits; below U+0100 these are
    ['0'] to ['9']. *)
Definition is_digit (c : ascii) : bool :=
  (48 <=? nat_of_ascii c)%nat && (nat_of_ascii c <=? 57)%nat.

Definition digit_value (c : ascii) : Z := Z.of_nat (nat_of_ascii c - 48).

(** What [re.search] returns: [m.group()] and the two captured groups,
    [m.groups(0)] (both groups take part in every match, so the default
    [0] is never used). *)
Record Match : Type := mkMatch {
  group0 : text;
  group1 : text;
  group2 : text
}.

(** A greedy [\d*] followed by the rest [k] of the pattern: the longest
    run of digits is tried first, and a digit is given back whenever
    the rest fails.  [acc] is what the star has taken so far. *)
Fixpoint greedy_digits {R} (k : text → text → option R) (acc s : text) : option R :=
  match s with
  | c :: s' =>
      if is_digit c then
        match greedy_digits k (acc ++ [c]) s' with
        | Some r => Some r
        | None => k acc s
        end
      else k acc s
  | [] => k acc s
  end.

(** [nand_expression] matched at the head of [s]: an exclamation mark,
    an opening parenthesis, a captured greedy run of digits, one
    wildcard character, a second captured greedy run of digits and a
    closing parenthesis.  The [.] between the two groups is not escaped
    in the pattern: it is the wildcard, any character but a line feed. *)
Definition match_here (s : text) : option Match :=
  match s with
  | "!" :: "(" :: s1 =>
      greedy_digits (λ g1 s2,
        match s2 with
        | c :: s3 =>
            if Ascii.eqb c "010" then None
            else
              greedy_digits (λ g2 s4,
                match s4 with
                | ")" :: _ => Some (mkMatch ("!" :: "(" :: g1 ++ c :: g2 ++ [")"]) g1 g2)
                | _ => None
                end) [] s3
        | [] => None
        end) [] s1
  | _ => None
  end.

(** [re.search(nand_expression, s)]: the match at the leftmost position
    that has one. *)
Fixpoint search (s : text) : option Match :=
  match match_here s with
  | Some m => Some m
  | None =>
      match s with
      | [] => None
      | _ :: s' => search s'
      end
  end.

(** [s] without a leading [old], if it starts with it. *)
Fixpoint strip_prefix (old s : text) : option text :=
  match old, s with
  | [], _ => Some s
  | a :: old', c :: s' => if Ascii.eqb a c then strip_prefix old' s' else None
  | _ :: _, [] => None
  end.

Fixpoint replace_loop (n : nat) (old new s : text) : text :=
  match n with
  | O => s
  | S n' =>
      match strip_prefix old s with
      | Some rest => new ++ replace_loop n' old new rest
      | None =>
          match s with
          | [] => []
          | c :: s' => c :: replace_loop n' old new s'
          end
      end
  end.

(** [s.replace(old, new)]: every occurrence of [old], scanning from the
    left and resuming after each replaced occurrence.  An empty [old]
    matches before every character and at the end. *)
Definition replace (old new s : text) : text :=
  match old with
  | [] => new ++ flat_map (λ c, c :: new) s
  | _ :: _ => replace_loop (length s) old new s
  end.

(** [s.split(sep)] for a separator of one character. *)
Fixpoint split (sep : ascii) (s : text) : list text :=
  match s with
  | [] => [[]]
  | c :: s' =>
      if Ascii.eqb c sep then [] :: split sep s'
      else
        match split sep s' with
        | piece :: pieces => (c :: piece) :: pieces
        | [] => [[c]]
        end
  end.

(** The characters [int] strips at both ends of its argument. *)
Definition is_space (c : ascii) : bool :=
  match nat_of_ascii c with
  | 9 | 10 | 11 | 12 | 13 | 32 | 133 | 160 => true
  | _ => false
  end%nat.

Fixpoint lstrip (s : text) : text :=
  match s with
  | c :: s' => if is_space c then lstrip s' else s
  | [] => []
  end.

Definition strip (s : text) : text := rev (lstrip (rev (lstrip s))).

(** The digits of an integer literal: at least one, with single
    underscores allowed between two digits. *)
Fixpoint int_digits (acc : Z) (after_digit : bool) (s : text) : option Z :=
  match s with
  | [] => if after_digit then Some acc else None
  | c :: s' =>
      if is_digit c then int_digits (10 * acc + digit_value c) true s'
      else if Ascii.eqb c "_" && after_digit then int_digits acc false s'
      else None
  end.

(** The default of [sys.int_max_str_digits]. *)
Definition int_max_str_digits : nat := 4300.

(** The longest prefix of [s] whose characters satisfy [p], and what
    follows it. *)
Fixpoint span (p : ascii → bool) (s : text) : text * text :=
  match s with
  | c :: s' =>
      if p c then let '(run, rest) := span p s' in (c :: run, rest)
      else ([], s)
  | [] => ([], [])
  end.

Definition count_digits (s : text) : nat := length (List.filter is_digit s).

(** The optional sign in front of an integer literal. *)
Definition split_sign (s : text) : bool * text :=
  match s with
  | "+" :: body => (false, body)
  | "-" :: body => (true, body)
  | body => (false, body)
  end.

(** [int(s)]: the text is stripped and an optional sign is read; then
    comes the run of digits and underscores.  An empty run or a misplaced
    underscore is an invalid literal; a run of more than
    [int_max_str_digits] digits exceeds the limit; anything left after
    the run is an invalid literal. *)
Definition py_int (s : text) : result Z :=
  let '(negative, body) := split_sign (strip s) in
  let '(run, rest) := span (λ c, is_digit c || Ascii.eqb c "_") body in
  match int_digits 0 false run with
  | None => Raise (ValueError (InvalidLiteral s))
  | Some z =>
      if (int_max_str_digits <? count_digits run)%nat then
        Raise (ValueError DigitLimit)
      else
        match rest with
        | [] => Return (if negative : bool then (- z)%Z else z)
        | _ :: _ => Raise (ValueError (InvalidLiteral s))
        end
  end.

(** The decimal text of an integer: what [str] returns when it
    returns. *)
Definition decimal (z : Z) : text :=
  list_ascii_of_string (NilZero.string_of_int (Z.to_int z)).

(** [str(z)]: refused when [z] has more than [int_max_str_digits]
    digits. *)
Definition py_str (z : Z) : result text :=
  if (int_max_str_digits <? length (decimal (Z.abs z)))%nat then
    Raise (ValueError DigitLimit)
  else Return (decimal z).

(** The number of ['!'] in a text: every NAND group still to reduce
    has exactly one. *)
Fixpoint count_bang (s : text) : nat :=
  match s with
  | [] => 0
  | c :: s' => (if Ascii.eqb c "!" then 1 else 0) + count_bang s'
  end.
End Text.

(** ** parse_input *)

(** [try: x = m except ValueError: pass] *)
Definition except_ValueError_pass {A} (m : result A) (x : A) : result A :=
  match m with
  | Raise (ValueError _) => Return x
  | other => other
  end.

(** [list(map(int, pieces))] *)
Fixpoint map_int (pieces : list text) : result (list Z) :=
  match pieces with
  | [] => Return []
  | piece :: rest =>
      z ← py_int piece;
      zs ← map_int rest;
      Return (z :: zs)
  end.

(** One turn of the [while match:] loop, for the match [m] found in
    [input_string].  [fresh] is the first identity not yet given to an
    object; the turn builds three nodes. *)
Definition reduce_step (graph : Graph) (fresh : nat) (input_string : text) (m : Match)
    : result (Graph * nat * text) :=
  v1 ← py_int (group1 m);
  let node1 := mkNode fresh v1 in
  v2 ← py_int (group2 m);
  let node2 := mkNode (fresh + 1) v2 in
  node1 ← except_ValueError_pass (get_node graph (value node1)) node1;
  node2 ← except_ValueError_pass (get_node graph (value node2)) node2;
  let nand1 := NAND_init node1 node2 in
  graph ← add_node graph node1 true;
  graph ← add_node graph node2 true;
  graph ← add_edge graph nand1;
  '(out, nand1) ← NAND_output (fresh + 2) nand1;
  graph ← add_node graph out true;
  '(out, nand1) ← NAND_output (fresh + 3) nand1;
  output_text ← py_str (value out);
  let input_string := replace (group0 m) output_text input_string in
  Return (graph, fresh + 3, input_string)%nat.

(** The [while match:] loop, for at most [fuel] turns. *)
Fixpoint reduce (fuel : nat) (graph : Graph) (fresh : nat) (input_string : text)
    : result (Graph * text) :=
  match search input_string with
  | None => Return (graph, input_string)
  | Some m =>
      match fuel with
      | O => OutOfFuel
      | S fuel' =>
          '(graph, fresh, input_string) ← reduce_step graph fresh input_string m;
          reduce fuel' graph fresh input_string
      end
  end.

(** The statements after the loop. *)
Definition finalize (input_string : text) : result Z :=
  output ← map_int (split "." input_string);
  match output with
  | _ :: _ :: _ :: _ =>                     (* [len(output) > 2] *)
      raise_InvalidInputError "Input is not in the expected format"
  | [a; b] => Return (Z.land a b)           (* [len(output) == 2] *)
  | [a] => Return a                         (* [output[0]] *)
  | [] => Raise IndexError
  end.

(** [print('\t', output, '\n')]: the integer is converted with [str]. *)
Definition print_output (output : Z) : result unit :=
  _ ← py_str output;
  Return ().

Definition parse_text (input_string : text) : result (Graph * Z) :=
  '(graph, input_string) ← reduce (count_bang input_string) Graph_init 0 input_string;
  output ← finalize input_string;
  _ ← print_output output;
  Return (graph, output).

Definition parse_input (input_string : string) : result (Graph * Z) :=
  parse_text (list_ascii_of_string input_string).

(** ** Invariants of the graph *)

(** No two stored nodes hold the same value. *)
Definition unique_values (g : Graph) : Prop :=
  ∀ n m, n ∈ _nodes g → m ∈ _nodes g → value n = value m → n = m.

(** Every stored node is a key of the dictionary of edges. *)
Definition keyed (g : Graph) : Prop :=
  ∀ n, n ∈ _nodes g → is_Some (_edges g !! n).

(** The values held by the destinations recorded for [source]. *)
Definition destination_values (g : Graph) (source : Node) : list Z :=
  match _edges g !! source with
  | Some dests => value <$> elements dests
  | None => []
  end.

(** ** Conversions and replacement *)

(** The [ValueError]s of the conversions [int] and [str]. *)
Definition conversion_error (why : value_error) : Prop :=
  why = DigitLimit ∨ ∃ lit, why = InvalidLiteral lit.

(** An integer of at most [int_max_str_digits] digits. *)
Definition within_limit (z : Z) : Prop :=
  (Z.abs z < 10 ^ Z.of_nat int_max_str_digits)%Z.

(** [s'] is [s] with every occurrence of [old] that a scan from the left
    meets replaced by [new]; the scan resumes after a replaced
    occurrence. *)
Inductive replaced_all (old new : text) : text → text → Prop :=
  | replaced_end : replaced_all old new [] []
  | replaced_here s s' :
      replaced_all old new s s' →
      replaced_all old new (old ++ s) (new ++ s')
  | replaced_next c s s' :
      (∀ rest, c :: s ≠ old ++ rest) →
      replaced_all old new s s' →
      replaced_all old new (c :: s) (c :: s').

(** ** Graphs built through the interface *)

(** The graphs a caller can obtain: [Graph()], then any number of
    [add_node] and [add_edge] calls that returned. *)
Inductive built : Graph → Prop :=
  | built_init : built Graph_init
  | built_add_node g node ignore_errors g' :
      built g → add_node g node ignore_errors = Return g' → built g'
  | built_add_edge g edge g' :
      built g → add_edge g edge = Return g' → built g'.

(** The value of every recorded destination is held by a stored node. *)
Definition destinations_present (g : Graph) : Prop :=
  ∀ source dests d,
    _edges g !! source = Some dests → d ∈ dests → has_node g d = true.

(** [g'] holds every vertex and every edge of [g]. *)
Definition grows (g g' : Graph) : Prop :=
  _nodes g ⊆ _nodes g' ∧
  ∀ source dests,
    _edges g !! source = Some dests →
    ∃ dests', _edges g' !! source = Some dests' ∧ dests ⊆ dests'.

(** The value of a run of decimal digits read after [acc]. *)
Definition digits_value (acc : Z) (d : text) : Z :=
  fold_left (λ a c, 10 * a + digit_value c)%Z d acc.

(** ** Well-formed expressions *)

(** The expressions of the docstring of [parse_input]: an operand is a
    non-empty run of digits or a NAND group of two operands. *)
Inductive term : Type :=
  | Lit (d : text)
  | Nand (a b : term).

#[global] Instance term_eq_dec : EqDecision term.
Proof. solve_decision. Defined.

Fixpoint well_formed (t : term) : Prop :=
  match t with
  | Lit d => d ≠ [] ∧ forallb is_digit d = true
  | Nand a b => well_formed a ∧ well_formed b
  end.

(** The text of an expression. *)
Fixpoint print (t : term) : text :=
  match t with
  | Lit d => d
  | Nand a b => "!" :: "(" :: print a ++ "." :: print b ++ [")"]
  end%char.

(** Operands separated by dots. *)
Fixpoint print_doc (ts : list term) : text :=
  match ts with
  | [] => []
  | [t] => print t
  | t :: ts' => print t ++ "."%char :: print_doc ts'
  end.

(** The value of an expression: a literal is worth its decimal value, a
    group the output of the gate on the values of its operands. *)
Fixpoint eval (t : term) : option Z :=
  match t with
  | Lit d => Some (digits_value 0 d)
  | Nand a b =>
      match eval a, eval b with
      | Some x, Some y => NAND_value x y
      | _, _ => None
      end
  end.

(** No literal and no output of a group has more digits than the
    conversions accept. *)
Fixpoint in_range (t : term) : Prop :=
  match t with
  | Lit d => length d ≤ int_max_str_digits
  | Nand a b =>
      in_range a ∧ in_range b ∧
      ∃ v, eval (Nand a b) = Some v ∧ within_limit v
  end.

(** The operands of the first group, in the order of the text, whose two
    operands are literals. *)
Fixpoint redex (t : term) : option (text * text) :=
  match t with
  | Lit _ => None
  | Nand a b =>
      match a, b with
      | Lit d1, Lit d2 => Some (d1, d2)
      | _, _ =>
          match redex a with
          | Some r => Some r
          | None => redex b
          end
      end
  end.

Fixpoint redex_doc (ts : list term) : option (text * text) :=
  match ts with
  | [] => None
  | t :: ts' =>
      match redex t with
      | Some r => Some r
      | None => redex_doc ts'
      end
  end.

(** Every group of the literals [d1] and [d2] replaced by the literal
    [new]. *)
Fixpoint subst (d1 d2 new : text) (t : term) : term :=
  match t with
  | Lit d => Lit d
  | Nand a b =>
      if bool_decide (a = Lit d1 ∧ b = Lit d2) then Lit new
      else Nand (subst d1 d2 new a) (subst d1 d2 new b)
  end.

(** The text of the group of the literals [d1] and [d2]. *)
Definition group_text (d1 d2 : text) : text :=
  ("!" :: "(" :: d1 ++ "." :: d2 ++ [")"])%char.

(** ** What a graph records, by value *)

(** Some vertex holds [v]. *)
Definition vertex_of_value (g : Graph) (v : Z) : Prop :=
  ∃ n, n ∈ _nodes g ∧ value n = v.

(** Some recorded edge goes from a node holding [x] to a node holding
    [y]. *)
Definition edge_of_values (g : Graph) (x y : Z) : Prop :=
  ∃ n1 n2 dests,
    _edges g !! n1 = Some dests ∧ n2 ∈ dests ∧ value n1 = x ∧ value n2 = y.

(** The values of the two operands of every group of an expression. *)
Fixpoint gates (t : term) : list (option Z * option Z) :=
  match t with
  | Lit _ => []
  | Nand a b => (eval a, eval b) :: gates a ++ gates b
  end.

Definition gates_doc (ts : list term) : list (option Z * option Z) :=
  flat_map gates ts.

(** [in_range] on a given expression, by computation. *)
Ltac in_range_literals :=
  cbn [in_range];
  repeat match goal with
    | |- _ ∧ _ => split
    | |- length _ ≤ int_max_str_digits => unfold int_max_str_digits; simpl; lia
    | |- ∃ v, eval _ = Some v ∧ within_limit v =>
        eexists; split; [vm_compute; reflexivity|vm_compute; reflexivity]
    end.

(** * Properties *)

(** ** The gate *)

Section WideningFacts.
Local Open Scope Z_scope.

(** What the loop returns: the first width of the doubling sequence
    started at [bits] under which the magnitude fits. *)
Lemma widen_spec fuel r bits w :
  widen fuel r bits = Some w →
  ∃ k : nat, w = bits * 2 ^ Z.of_nat k ∧ Z.abs r < 2 ^ w ∧
    ∀ j : nat, (j < k)%nat → 2 ^ (bits * 2 ^ Z.of_nat j) ≤ Z.abs r.
Proof.
  revert bits. induction fuel as [|fuel IH]; intros bits; simpl; [done|].
  destruct (Z.ltb_spec (Z.abs r) (2 ^ bits)) as [Hlt|Hge].
  - intros [= <-]. exists 0%nat. split; [simpl; lia|]. split; [done|]. lia.
  - intros (k & -> & Hfit & Hmin)%IH. exists (S k). split.
    { rewrite Nat2Z.inj_succ, Z.pow_succ_r by lia. lia. }
    split; [done|].
    intros [|j] Hj.
    + simpl. by rewrite Z.mul_1_r.
    + rewrite Nat2Z.inj_succ, Z.pow_succ_r by lia.
      replace (bits * (2 * 2 ^ Z.of_nat j)) with (bits * 2 * 2 ^ Z.of_nat j) by lia.
      apply Hmin. lia.
Qed.

Lemma fits_of_log2 r bits : Z.log2 (Z.abs r) < bits → Z.abs r < 2 ^ bits.
Proof.
  intros Hlog. pose proof (Z.log2_nonneg (Z.abs r)) as Hnonneg.
  destruct (Z.eq_dec (Z.abs r) 0) as [->|Hnz].
  - apply Z.pow_pos_nonneg; lia.
  - apply Z.log2_lt_pow2; lia.
Qed.

(** The loop stops: the width grows by at least one at each turn. *)
Lemma widen_enough_fuel r fuel bits :
  1 ≤ bits → Z.log2 (Z.abs r) < bits + Z.of_nat fuel →
  is_Some (widen (S fuel) r bits).
Proof.
  revert bits. induction fuel as [|fuel IH]; intros bits Hbits Hlog.
  - simpl. pose proof (fits_of_log2 r bits) as Hfit.
    destruct (Z.ltb_spec (Z.abs r) (2 ^ bits)); [by eexists|lia].
  - change (widen (S (S fuel)) r bits) with
      (if Z.abs r <? 2 ^ bits then Some bits else widen (S fuel) r (bits * 2)).
    destruct (Z.abs r <? 2 ^ bits); [by eexists|].
    apply IH; lia.
Qed.

Lemma widen_terminates r : is_Some (widen (widen_fuel r) r 4).
Proof.
  apply widen_enough_fuel; [lia|].
  pose proof (Z.log2_nonneg (Z.abs r)). lia.
Qed.

(** More turns than needed change nothing. *)
Lemma widen_fuel_mono fuel fuel' r bits w :
  widen fuel r bits = Some w → (fuel ≤ fuel')%nat → widen fuel' r bits = Some w.
Proof.
  revert fuel' bits. induction fuel as [|fuel IH]; intros fuel' bits; simpl; [done|].
  intros Hw Hle. destruct fuel' as [|fuel']; [lia|]. simpl.
  destruct (Z.abs r <? 2 ^ bits); [done|]. apply IH; [done|lia].
Qed.

Lemma NAND_value_is_Some a b : is_Some (NAND_value a b).
Proof.
  unfold NAND_value.
  destruct (widen_terminates (Z.lnot (Z.land a b))) as [w ->]. by eexists.
Qed.

Lemma NAND_value_pos a b v : NAND_value a b = Some v → 0 < v.
Proof.
  unfold NAND_value.
  destruct (widen _ _ _) as [w|] eqn:Hw; [|done].
  intros [= <-]. apply widen_spec in Hw as (_ & _ & Hfit & _). lia.
Qed.
End WideningFacts.

(** C1.  For all integers [a] and [b], reading the output of the gate on
    nodes holding [a] and [b] returns a node whose value is
    [2 ^ w - |~(a & b)|], where [w] is the first width of the sequence
    4, 8, 16, ... with [|~(a & b)| < 2 ^ w] (every earlier width [4 * 2 ^ j]
    is too narrow); the value is non-negative. *)
Theorem NAND_output_value (a b : Z) (ia ib fresh : nat) :
  let r := Z.lnot (Z.land a b) in
  ∃ (k : nat) (gate : NAND),
    let w := (4 * 2 ^ Z.of_nat k)%Z in
    NAND_output fresh (NAND_init (mkNode ia a) (mkNode ib b))
      = Return (mkNode fresh (2 ^ w - Z.abs r), gate) ∧
    (Z.abs r < 2 ^ w)%Z ∧
    (∀ j : nat, j < k → (2 ^ (4 * 2 ^ Z.of_nat j) ≤ Z.abs r)%Z) ∧
    (0 ≤ 2 ^ w - Z.abs r)%Z.
Proof.
  intros r. unfold NAND_output, NAND_init.
  cbn [_output input_a input_b value]. unfold NAND_value. fold r.
  destruct (widen_terminates r) as [w Hw]. rewrite Hw.
  apply widen_spec in Hw as (k & -> & Hfit & Hmin).
  exists k. eexists. split; [reflexivity|]. repeat split; [done|done|lia].
Qed.

(** ** The graph *)

Lemma has_node_true g node :
  has_node g node = true ↔ ∃ i, i ∈ _nodes g ∧ value i = value node.
Proof.
  unfold has_node. rewrite existsb_exists. split.
  - intros (i & Hin & Heq). exists i. split.
    + by apply elem_of_elements, list_elem_of_In.
    + by apply bool_decide_eq_true in Heq.
  - intros (i & Hin & Heq). exists i. split.
    + by apply list_elem_of_In, elem_of_elements.
    + by apply bool_decide_eq_true.
Qed.

Lemma has_node_false g node :
  has_node g node = false ↔ ∀ i, i ∈ _nodes g → value i ≠ value node.
Proof.
  rewrite <- not_true_iff_false, has_node_true. split.
  - intros Hnone i Hin Heq. apply Hnone. by exists i.
  - intros Hall (i & Hin & Heq). by apply (Hall i).
Qed.

Lemma has_node_same_value g n m : value n = value m → has_node g n = has_node g m.
Proof. unfold has_node. by intros ->. Qed.

Lemma get_node_Return g v node :
  get_node g v = Return node → node ∈ _nodes g ∧ value node = v.
Proof.
  unfold get_node. destruct (List.find _ _) as [n|] eqn:Hfind; [|done].
  intros [= ->]. apply find_some in Hfind as [Hin Heq]. split.
  - by apply elem_of_elements, list_elem_of_In.
  - by apply bool_decide_eq_true in Heq.
Qed.

Lemma get_node_Raise g v :
  (∀ node, get_node g v ≠ Return node) →
  get_node g v = Raise (ValueError NoNodeWithValue) ∧ has_node g (mkNode 0 v) = false.
Proof.
  unfold get_node. destruct (List.find _ _) as [n|] eqn:Hfind.
  { intros Hne. by destruct (Hne n). }
  intros _. split; [done|]. apply has_node_false. intros i Hin Heq.
  assert (bool_decide (value i = v) = false) as Hno.
  { apply (find_none _ _ Hfind i). by apply list_elem_of_In, elem_of_elements. }
  by apply bool_decide_eq_false in Hno.
Qed.

(** With unique values the scan of [get_node] has one possible answer,
    whatever its order. *)
Lemma get_node_unique g n :
  unique_values g → n ∈ _nodes g → get_node g (value n) = Return n.
Proof.
  intros Huniq Hin. unfold get_node.
  destruct (List.find _ _) as [m|] eqn:Hfind.
  - apply find_some in Hfind as [Hm Heq]. apply bool_decide_eq_true in Heq.
    f_equal. apply Huniq; [|done|done].
    by apply elem_of_elements, list_elem_of_In.
  - assert (bool_decide (value n = value n) = false) as Hno.
    { apply (find_none _ _ Hfind n). by apply list_elem_of_In, elem_of_elements. }
    by apply bool_decide_eq_false in Hno.
Qed.

Lemma unique_values_init : unique_values Graph_init.
Proof. intros n m Hn. exfalso. revert Hn. unfold Graph_init; simpl. set_solver. Qed.

Lemma keyed_init : keyed Graph_init.
Proof. intros n Hn. exfalso. revert Hn. unfold Graph_init; simpl. set_solver. Qed.

Lemma add_node_unique_values g node ignore_errors g' :
  unique_values g → add_node g node ignore_errors = Return g' → unique_values g'.
Proof.
  intros Huniq. unfold add_node.
  destruct (has_node g node) eqn:Hhas.
  - case_bool_decide; [done|]. by intros [= <-].
  - intros [= <-]. intros n m; simpl.
    rewrite has_node_false in Hhas.
    rewrite !elem_of_union, !elem_of_singleton.
    intros [->|Hn] [->|Hm] Heq; [done| | |by apply Huniq].
    + by destruct (Hhas m Hm).
    + by destruct (Hhas n Hn).
Qed.

(** C9.  For every graph, node and flag: [has_node] tells whether a
    stored node holds an equal value; when none does, [add_node] adds the
    node to the vertex set together with an empty destination set; when
    one does, it raises 'Node already exists' if [ignore_errors] is false
    and returns the graph unchanged if it is true; hence a vertex set
    without two nodes of equal value stays so. *)
Theorem add_node_spec (g : Graph) (node : Node) (ignore_errors : bool) :
  (has_node g node = true ↔ ∃ i, i ∈ _nodes g ∧ value i = value node) ∧
  (has_node g node = false →
     add_node g node ignore_errors
       = Return (mkGraph ({[node]} ∪ _nodes g) (<[node := ∅]> (_edges g)))) ∧
  (has_node g node = true → ignore_errors = false →
     add_node g node ignore_errors = Raise (ValueError NodeAlreadyExists)) ∧
  (has_node g node = true → ignore_errors = true →
     add_node g node ignore_errors = Return g) ∧
  (unique_values g →
     ∀ g', add_node g node ignore_errors = Return g' → unique_values g').
Proof.
  split; [apply has_node_true|]. unfold add_node.
  split; [by intros ->|]. split; [by intros -> ->|]. split; [by intros -> ->|].
  intros Huniq g'. by apply add_node_unique_values.
Qed.

Lemma add_node_ignore g node :
  ∃ g', add_node g node true = Return g' ∧
        has_node g' node = true ∧
        (∀ n, has_node g n = true → has_node g' n = true) ∧
        (has_node g node = true → g' = g) ∧
        (has_node g node = false → node ∈ _nodes g') ∧
        (∀ n, n ∈ _nodes g → n ∈ _nodes g') ∧
        (keyed g → keyed g').
Proof.
  unfold add_node. destruct (has_node g node) eqn:Hhas.
  - exists g. by repeat split.
  - eexists. split; [done|]. simpl. split.
    { apply has_node_true. exists node. simpl. split; [set_solver|done]. }
    split.
    { intros n (i & Hi & Heq)%has_node_true. apply has_node_true.
      exists i. simpl. split; [set_solver|done]. }
    split; [done|]. split; [simpl; set_solver|]. split; [simpl; set_solver|].
    intros Hkeyed n; simpl. rewrite elem_of_union, elem_of_singleton.
    intros [->|Hn].
    + rewrite lookup_insert_eq. by eexists.
    + destruct (decide (node = n)) as [->|Hne].
      * rewrite lookup_insert_eq. by eexists.
      * rewrite lookup_insert_ne by done. by apply Hkeyed.
Qed.

(** [add_edge] raises 'Nodes not present in the Graph!' exactly when the
    value of one of the two inputs is held by no stored node. *)
Lemma add_edge_not_present g edge :
  add_edge g edge = Raise (ValueError NodesNotPresent) ↔
  has_node g (input_a edge) = false ∨ has_node g (input_b edge) = false.
Proof.
  unfold add_edge.
  destruct (has_node g (input_a edge)), (has_node g (input_b edge)); simpl;
    [|split; [auto|done]..].
  split; [|by intros [|]].
  destruct (_edges g !! input_a edge); [|done]. by case_bool_decide.
Qed.

(** When both values are present and the source itself is a key of the
    dictionary, the edge is recorded and the vertex set is untouched. *)
Lemma add_edge_keyed g edge :
  has_node g (input_a edge) = true → has_node g (input_b edge) = true →
  is_Some (_edges g !! input_a edge) →
  ∃ g', add_edge g edge = Return g' ∧ _nodes g' = _nodes g ∧
        (keyed g → keyed g') ∧
        ∃ dests, _edges g' !! input_a edge = Some dests ∧ input_b edge ∈ dests.
Proof.
  intros Ha Hb [dests Hdests]. unfold add_edge. rewrite Ha, Hb, Hdests. simpl.
  case_bool_decide as Hin.
  - eexists. split; [done|]. simpl. split; [done|]. split.
    + intros Hkeyed n Hn. simpl in *.
      destruct (decide (input_a edge = n)) as [->|Hne].
      * rewrite lookup_insert_eq. by eexists.
      * rewrite lookup_insert_ne by done. by apply Hkeyed.
    + eexists. rewrite lookup_insert_eq. split; [done|]. set_solver.
  - exists g. split; [done|]. split; [done|]. split; [done|].
    exists dests. split; [done|].
    by destruct (decide (input_b edge ∈ dests)).
Qed.

(** ** The scanner *)

Section ScannerFacts.
Local Open Scope char_scope.
Local Arguments match_here : simpl never.

Lemma greedy_digits_inv {R} (k : text → text → option R) acc s r :
  greedy_digits k acc s = Some r →
  ∃ d s', s = d ++ s' ∧ forallb is_digit d = true ∧ k (acc ++ d) s' = Some r.
Proof.
  revert acc. induction s as [|c s IH]; intros acc; simpl.
  - intros Hk. exists [], []. simpl. by rewrite app_nil_r.
  - destruct (is_digit c) eqn:Hc.
    + destruct (greedy_digits k (acc ++ [c]) s) as [r'|] eqn:Hmore.
      * intros [= ->]. apply IH in Hmore as (d & s' & -> & Hd & Hk).
        exists (c :: d), s'. simpl. rewrite Hc, Hd.
        by rewrite <- app_assoc in Hk.
      * intros Hk. exists [], (c :: s). simpl. by rewrite app_nil_r.
    + intros Hk. exists [], (c :: s). simpl. by rewrite app_nil_r.
Qed.

(** Every match is an exclamation mark, an opening parenthesis, digits,
    one character that is not a line feed, digits and a closing
    parenthesis, read at the head of the text. *)
Lemma match_here_inv s m :
  match_here s = Some m →
  ∃ c rest,
    s = group0 m ++ rest ∧
    group0 m = "!" :: "(" :: group1 m ++ c :: group2 m ++ [")"] ∧
    forallb is_digit (group1 m) = true ∧
    forallb is_digit (group2 m) = true ∧
    c ≠ "010".
Proof.
  unfold match_here.
  destruct s as [|c0 s]; [done|].
  destruct (ascii_dec c0 "!") as [->|Hne0]; [|by destruct c0 as [[] [] [] [] [] [] [] []]].
  destruct s as [|c1 s]; [done|].
  destruct (ascii_dec c1 "(") as [->|Hne1]; [|by destruct c1 as [[] [] [] [] [] [] [] []]].
  intros (g1 & s2 & -> & Hg1 & Hk)%greedy_digits_inv. simpl in Hk.
  destruct s2 as [|c s3]; [done|].
  destruct (Ascii.eqb_spec c "010") as [|Hc]; [done|].
  apply greedy_digits_inv in Hk as (g2 & s4 & -> & Hg2 & Hk). simpl in Hk.
  destruct s4 as [|c4 rest]; [done|].
  destruct (ascii_dec c4 ")") as [->|Hne4]; [|by destruct c4 as [[] [] [] [] [] [] [] []]].
  injection Hk as <-. simpl. exists c, rest.
  split; [|done].
  do 2 f_equal. rewrite <- !app_assoc. simpl. by rewrite <- app_assoc.
Qed.

(** The match that [search] returns occurs in the text. *)
Lemma search_inv s m :
  search s = Some m →
  ∃ pre rest, s = pre ++ group0 m ++ rest ∧ match_here (group0 m ++ rest) = Some m.
Proof.
  induction s as [|c s IH]; simpl.
  - done.
  - destruct (match_here (c :: s)) eqn:Hm.
    + intros [= ->]. apply match_here_inv in Hm as Hinv.
      destruct Hinv as (? & rest & Hs & _).
      exists [], rest. simpl. by rewrite <- Hs.
    + intros (pre & rest & -> & Hm')%IH. by exists (c :: pre), rest.
Qed.

Lemma search_None_here s : search s = None → match_here s = None.
Proof.
  destruct s as [|c s]; simpl.
  - reflexivity.
  - by destruct (match_here (c :: s)).
Qed.
End ScannerFacts.

(** ** Replacing a reduced group *)

Section ReplaceFacts.
Local Open Scope char_scope.

Lemma count_bang_app s t : count_bang (s ++ t) = count_bang s + count_bang t.
Proof. induction s as [|c s IH]; simpl; [done|]. rewrite IH. lia. Qed.

Lemma strip_prefix_Some old s rest : strip_prefix old s = Some rest → s = old ++ rest.
Proof.
  revert s. induction old as [|a old IH]; intros [|c s]; simpl; try congruence.
  destruct (Ascii.eqb_spec a c) as [->|]; [|done].
  intros Hs. f_equal. by apply IH.
Qed.

Lemma strip_prefix_app old rest : strip_prefix old (old ++ rest) = Some rest.
Proof.
  induction old as [|a old IH]; simpl; [by destruct rest|].
  by rewrite Ascii.eqb_refl.
Qed.

Lemma replace_nonempty old new s :
  old ≠ [] → replace old new s = replace_loop (length s) old new s.
Proof. by destruct old. Qed.

Lemma strip_prefix_shorter old s rest :
  old ≠ [] → strip_prefix old s = Some rest → length rest < length s.
Proof.
  intros Hold ->%strip_prefix_Some. rewrite length_app.
  destruct old; [done|]. simpl. lia.
Qed.

Lemma strip_prefix_nil old : old ≠ [] → strip_prefix old [] = None.
Proof. by destruct old. Qed.

(** Beyond the length of the text, the bound of [replace_loop] is
    immaterial. *)
Lemma replace_loop_enough old new n m s :
  old ≠ [] → length s ≤ n → length s ≤ m →
  replace_loop n old new s = replace_loop m old new s.
Proof.
  intros Hold. revert m s. induction n as [|n IH]; intros m s Hn Hm.
  - destruct s; [|simpl in Hn; lia].
    destruct m; simpl; [done|]. by rewrite strip_prefix_nil.
  - destruct m as [|m].
    + destruct s; [|simpl in Hm; lia]. simpl. by rewrite strip_prefix_nil.
    + simpl. destruct (strip_prefix old s) as [rest|] eqn:Hstrip.
      * pose proof (strip_prefix_shorter _ _ _ Hold Hstrip).
        f_equal. apply IH; lia.
      * destruct s as [|c s]; [done|]. simpl in *. f_equal. apply IH; lia.
Qed.

Lemma replace_hit old new s :
  old ≠ [] → replace old new (old ++ s) = new ++ replace old new s.
Proof.
  intros Hold. rewrite !replace_nonempty by done.
  destruct (length (old ++ s)) as [|n] eqn:Hlen.
  { destruct old; [done|]. simpl in Hlen. lia. }
  simpl. rewrite strip_prefix_app. f_equal.
  apply replace_loop_enough; [done| |done].
  rewrite length_app in Hlen. destruct old; [done|]. simpl in Hlen. lia.
Qed.

Lemma replace_miss old new c s :
  old ≠ [] → strip_prefix old (c :: s) = None →
  replace old new (c :: s) = c :: replace old new s.
Proof.
  intros Hold Hstrip. rewrite !replace_nonempty by done. simpl. by rewrite Hstrip.
Qed.

Lemma replace_nil old new : old ≠ [] → replace old new [] = [].
Proof. by destruct old. Qed.

(** [replace] replaces every occurrence that the scan meets. *)
Lemma strip_prefix_None old s :
  strip_prefix old s = None → ∀ rest, s ≠ old ++ rest.
Proof. intros Hnone rest ->. by rewrite strip_prefix_app in Hnone. Qed.

Lemma replace_replaced_all old new s :
  old ≠ [] → replaced_all old new s (replace old new s).
Proof.
  intros Hold. remember (length s) as n eqn:Hn.
  revert s Hn. induction (lt_wf n) as [n _ IH]. intros s ->.
  destruct (strip_prefix old s) as [rest|] eqn:Hstrip.
  - pose proof (strip_prefix_shorter _ _ _ Hold Hstrip) as Hshort.
    apply strip_prefix_Some in Hstrip as ->.
    rewrite replace_hit by done. constructor. by eapply IH.
  - destruct s as [|c s].
    + rewrite replace_nil by done. constructor.
    + rewrite replace_miss by done. constructor.
      * by apply strip_prefix_None.
      * eapply IH; [|done]. simpl. lia.
Qed.

Lemma replaced_all_unique old new s s1 s2 :
  old ≠ [] → replaced_all old new s s1 → replaced_all old new s s2 → s1 = s2.
Proof.
  intros Hold H1. revert s2.
  induction H1 as [|s s' _ IH|c s s' Hnot _ IH]; intros s2 H2.
  - inversion H2 as [|t t' _ Heq|]; [done|].
    destruct old; [done|discriminate].
  - remember (old ++ s) as u eqn:Hu.
    destruct H2 as [|t t' H2|c t t' Hnot H2].
    + destruct old; [done|discriminate].
    + apply app_inv_head in Hu as ->. f_equal. by apply IH.
    + by destruct (Hnot s).
  - inversion H2 as [|t t' _ Heq|c' t t' _ H2']; subst.
    + by destruct (Hnot t).
    + f_equal. by apply IH.
Qed.

Section Counting.
Variables old new : text.
Hypothesis new_no_bang : count_bang new = 0.

Lemma replace_loop_count_le n s :
  count_bang (replace_loop n old new s) ≤ count_bang s.
Proof.
  revert s. induction n as [|n IH]; intros s; simpl; [done|].
  destruct (strip_prefix old s) as [rest|] eqn:Hstrip.
  - apply strip_prefix_Some in Hstrip as ->.
    rewrite !count_bang_app, new_no_bang. specialize (IH rest). lia.
  - destruct s as [|c s]; [done|]. simpl. specialize (IH s). lia.
Qed.

Hypothesis old_bang : 0 < count_bang old.

Lemma replace_loop_count_lt n pre rest :
  length (pre ++ old ++ rest) ≤ n →
  count_bang (replace_loop n old new (pre ++ old ++ rest))
    < count_bang (pre ++ old ++ rest).
Proof.
  revert pre. induction n as [|n IH]; intros pre Hlen.
  - rewrite !length_app in Hlen. destruct old; simpl in *; lia.
  - simpl. destruct (strip_prefix old (pre ++ old ++ rest)) as [rest'|] eqn:Hstrip.
    + apply strip_prefix_Some in Hstrip as ->.
      rewrite !count_bang_app, new_no_bang.
      pose proof (replace_loop_count_le n rest'). lia.
    + destruct pre as [|c pre]; simpl in *.
      { by rewrite strip_prefix_app in Hstrip. }
      specialize (IH pre). lia.
Qed.

(** Replacing an [old] that occurs in the text and holds a ['!'] by a
    [new] that holds none leaves fewer of them. *)
Lemma replace_count_lt pre rest :
  count_bang (replace old new (pre ++ old ++ rest))
    < count_bang (pre ++ old ++ rest).
Proof.
  rewrite replace_nonempty.
  - by apply replace_loop_count_lt.
  - intros Hnil. pose proof old_bang as Hbang. rewrite Hnil in Hbang.
    simpl in Hbang. lia.
Qed.
End Counting.

Lemma string_of_uint_no_bang d :
  count_bang (list_ascii_of_string (NilEmpty.string_of_uint d)) = 0.
Proof. induction d; simpl; done. Qed.

(** The decimal text of an integer holds no ['!']. *)
Lemma decimal_no_bang z : count_bang (decimal z) = 0.
Proof.
  unfold decimal.
  assert (∀ d, count_bang (list_ascii_of_string (NilZero.string_of_uint d)) = 0) as Huint.
  { intros []; try apply string_of_uint_no_bang. done. }
  destruct (Z.to_int z); simpl; by rewrite Huint.
Qed.
End ReplaceFacts.

(** ** Integers and their decimal text *)

Section DecimalFacts.
Local Open Scope char_scope.

Lemma string_of_uint_digits d :
  forallb is_digit (list_ascii_of_string (NilEmpty.string_of_uint d)) = true.
Proof. induction d; simpl; done. Qed.

Lemma lstrip_no_space s : forallb (λ c, negb (is_space c)) s = true → lstrip s = s.
Proof. destruct s as [|c s]; simpl; [done|]. by destruct (is_space c). Qed.

Lemma strip_no_space s : forallb (λ c, negb (is_space c)) s = true → strip s = s.
Proof.
  intros Hs. unfold strip. rewrite (lstrip_no_space s Hs).
  rewrite lstrip_no_space, rev_involutive; [done|].
  apply forallb_forall. intros c Hc%in_rev.
  by apply (proj1 (forallb_forall _ _) Hs).
Qed.

Lemma digit_not_space c : is_digit c = true → negb (is_space c) = true.
Proof. by destruct c as [[] [] [] [] [] [] [] []]. Qed.

Lemma digits_no_space d :
  forallb is_digit d = true → forallb (λ c, negb (is_space c)) d = true.
Proof.
  rewrite !forallb_forall. intros Hd c Hc. by apply digit_not_space, Hd.
Qed.

Lemma digits_value_snoc acc d c :
  digits_value acc (d ++ [c]) = (10 * digits_value acc d + digit_value c)%Z.
Proof. unfold digits_value. by rewrite fold_left_app. Qed.

Lemma digit_value_range c : is_digit c = true → (0 ≤ digit_value c ≤ 9)%Z.
Proof. destruct c as [[] [] [] [] [] [] [] []]; try done; vm_compute; by split. Qed.

Lemma digits_value_nonneg d acc :
  forallb is_digit d = true → (0 ≤ acc)%Z → (0 ≤ digits_value acc d)%Z.
Proof.
  revert acc. induction d as [|c d IH]; intros acc; simpl; [done|].
  intros [Hc Hd]%andb_true_iff Hacc. apply IH; [done|].
  pose proof (digit_value_range c Hc). lia.
Qed.

(** [int_digits] on a run of digits. *)
Lemma int_digits_digits d acc b :
  forallb is_digit d = true → b = true ∨ d ≠ [] →
  int_digits acc b d = Some (digits_value acc d).
Proof.
  revert acc b. induction d as [|c d IH]; intros acc b; simpl.
  - intros _ [->|]; done.
  - intros [Hc Hd]%andb_true_iff _. rewrite Hc. apply IH; auto.
Qed.

Lemma span_digits d :
  forallb is_digit d = true →
  span (λ c, is_digit c || Ascii.eqb c "_") d = (d, []).
Proof.
  induction d as [|c d IH]; simpl; [done|].
  intros [Hc Hd]%andb_true_iff. by rewrite Hc, (IH Hd).
Qed.

Lemma count_digits_cons c s :
  count_digits (c :: s) = ((if is_digit c then 1 else 0) + count_digits s)%nat.
Proof. unfold count_digits. simpl. by destruct (is_digit c). Qed.

Lemma count_digits_digits d : forallb is_digit d = true → count_digits d = length d.
Proof.
  induction d as [|c d IH]; [done|].
  intros [Hc Hd]%andb_true_iff. rewrite count_digits_cons, Hc, (IH Hd). done.
Qed.

Lemma split_sign_digit c d : is_digit c = true → split_sign (c :: d) = (false, c :: d).
Proof. by destruct c as [[] [] [] [] [] [] [] []]. Qed.

Lemma split_sign_digits d :
  d ≠ [] → forallb is_digit d = true → split_sign d = (false, d).
Proof.
  destruct d as [|c d]; [done|]. intros _ [Hc _]%andb_true_iff.
  by apply split_sign_digit.
Qed.

(** [int] of a non-empty run of digits within the limit is its decimal
    value. *)
Lemma py_int_digits d :
  d ≠ [] → forallb is_digit d = true → length d ≤ int_max_str_digits →
  py_int d = Return (digits_value 0 d).
Proof.
  intros Hne Hd Hlen. unfold py_int.
  rewrite (strip_no_space d (digits_no_space d Hd)).
  rewrite (split_sign_digits d Hne Hd).
  rewrite (span_digits d Hd), (int_digits_digits d 0 false Hd (or_intror Hne)).
  rewrite (count_digits_digits d Hd).
  by destruct (Nat.ltb_spec int_max_str_digits (length d)); [lia|].
Qed.

(** [int] of a run of digits beyond the limit is refused. *)
Lemma py_int_digits_long d :
  forallb is_digit d = true → int_max_str_digits < length d →
  py_int d = Raise (ValueError DigitLimit).
Proof.
  intros Hd Hlen. unfold py_int.
  assert (d ≠ []) as Hne by (intros ->; simpl in Hlen; lia).
  rewrite (strip_no_space d (digits_no_space d Hd)).
  rewrite (split_sign_digits d Hne Hd).
  rewrite (span_digits d Hd), (int_digits_digits d 0 false Hd (or_intror Hne)).
  rewrite (count_digits_digits d Hd).
  by destruct (Nat.ltb_spec int_max_str_digits (length d)); [|lia].
Qed.

(** When [int] returns on a non-empty run of digits, the run is within
    the limit and the result is its decimal value. *)
Lemma py_int_digits_Return d z :
  d ≠ [] → forallb is_digit d = true → py_int d = Return z →
  z = digits_value 0 d ∧ length d ≤ int_max_str_digits.
Proof.
  intros Hne Hd Hz. destruct (Nat.le_gt_cases (length d) int_max_str_digits) as [Hle|Hgt].
  - rewrite py_int_digits in Hz by done. by injection Hz as <-.
  - rewrite py_int_digits_long in Hz by done. done.
Qed.

(** The value [int_digits] reads lies between the bounds its count of
    digits sets. *)
Lemma int_digits_bound run acc b z :
  (0 ≤ acc)%Z → int_digits acc b run = Some z →
  (acc * 10 ^ Z.of_nat (count_digits run) ≤ z
   < (acc + 1) * 10 ^ Z.of_nat (count_digits run))%Z.
Proof.
  revert acc b. induction run as [|c run IH]; intros acc b Hacc; simpl.
  - destruct b; [|done]. intros [= ->]. change (count_digits []) with 0%nat. lia.
  - rewrite count_digits_cons. destruct (is_digit c) eqn:Hc.
    + intros Hz. pose proof (digit_value_range c Hc) as Hrange.
      apply IH in Hz; [|lia].
      replace (Z.of_nat (1 + count_digits run)) with (Z.succ (Z.of_nat (count_digits run)))
        by lia.
      rewrite Z.pow_succ_r by lia.
      assert (0 < 10 ^ Z.of_nat (count_digits run))%Z by (apply Z.pow_pos_nonneg; lia).
      nia.
    + destruct (Ascii.eqb c "_" && b); [|done]. intros Hz. by apply IH in Hz.
Qed.

(** What [int] returns is within the limit of [str]. *)
Lemma py_int_within_limit s z : py_int s = Return z → within_limit z.
Proof.
  unfold py_int, within_limit.
  destruct (split_sign (strip s)) as [negative body].
  destruct (span _ body) as [run rest].
  destruct (int_digits 0 false run) as [v|] eqn:Hv; [|done].
  destruct (Nat.ltb_spec int_max_str_digits (count_digits run)) as [|Hle]; [done|].
  destruct rest; [|done].
  apply int_digits_bound in Hv; [|done].
  assert (10 ^ Z.of_nat (count_digits run) ≤ 10 ^ Z.of_nat int_max_str_digits)%Z
    by (apply Z.pow_le_mono_r; lia).
  intros [= <-]. destruct negative; lia.
Qed.

Lemma digits_value_uint_acc d acc :
  digits_value (Z.pos acc) (list_ascii_of_string (NilEmpty.string_of_uint d))
    = Z.pos (Pos.of_uint_acc d acc).
Proof.
  revert acc. induction d; intros acc; simpl; [done|..];
    (etransitivity; [|apply IHd]); unfold digits_value; f_equal;
    change (digit_value _) with 0%Z || change (digit_value _) with 1%Z ||
    change (digit_value _) with 2%Z || change (digit_value _) with 3%Z ||
    change (digit_value _) with 4%Z || change (digit_value _) with 5%Z ||
    change (digit_value _) with 6%Z || change (digit_value _) with 7%Z ||
    change (digit_value _) with 8%Z || change (digit_value _) with 9%Z;
    lia.
Qed.

Lemma digits_value_uint d :
  digits_value 0 (list_ascii_of_string (NilEmpty.string_of_uint d))
    = Z.of_N (Pos.of_uint d).
Proof.
  induction d; simpl; [done|apply IHd|..]; apply (digits_value_uint_acc d).
Qed.

Lemma to_uint_not_Nil p : Pos.to_uint p ≠ Decimal.Nil.
Proof.
  intros Hnil. pose proof (DecimalPos.Unsigned.of_to p) as Hp.
  by rewrite Hnil in Hp.
Qed.

Lemma decimal_pos p :
  decimal (Z.pos p) = list_ascii_of_string (NilEmpty.string_of_uint (Pos.to_uint p)).
Proof.
  unfold decimal. simpl. pose proof (to_uint_not_Nil p).
  by destruct (Pos.to_uint p).
Qed.

Lemma decimal_digits p :
  decimal (Z.pos p) ≠ [] ∧ forallb is_digit (decimal (Z.pos p)) = true ∧
  digits_value 0 (decimal (Z.pos p)) = Z.pos p.
Proof.
  rewrite decimal_pos. split; [|split].
  - pose proof (to_uint_not_Nil p). by destruct (Pos.to_uint p).
  - apply string_of_uint_digits.
  - by rewrite digits_value_uint, DecimalPos.Unsigned.of_to.
Qed.

Lemma digits_value_bound d acc :
  forallb is_digit d = true → (0 ≤ acc)%Z →
  (acc * 10 ^ Z.of_nat (length d) ≤ digits_value acc d
   < (acc + 1) * 10 ^ Z.of_nat (length d))%Z.
Proof.
  revert acc. induction d as [|c d IH]; intros acc.
  - intros _ _. simpl. lia.
  - intros [Hc Hd]%andb_true_iff Hacc.
    pose proof (digit_value_range c Hc) as Hrange.
    change (digits_value acc (c :: d)) with (digits_value (10 * acc + digit_value c) d).
    specialize (IH (10 * acc + digit_value c)%Z Hd ltac:(lia)).
    replace (Z.of_nat (length (c :: d))) with (Z.succ (Z.of_nat (length d)))
      by (simpl; lia).
    rewrite Z.pow_succ_r by lia.
    assert (0 < 10 ^ Z.of_nat (length d))%Z by (apply Z.pow_pos_nonneg; lia).
    nia.
Qed.

Lemma nzhead_head d :
  match Decimal.nzhead d with Decimal.D0 _ => False | _ => True end.
Proof. induction d; simpl; done. Qed.

(** The decimal text of a positive integer starts with a digit that is
    not ['0']. *)
Lemma to_uint_head p :
  match Pos.to_uint p with Decimal.Nil | Decimal.D0 _ => False | _ => True end.
Proof.
  pose proof (DecimalPos.Unsigned.to_of (Pos.to_uint p)) as Hnorm.
  rewrite DecimalPos.Unsigned.of_to in Hnorm. simpl in Hnorm.
  pose proof (DecimalPos.Unsigned.of_to p) as Hp.
  pose proof (nzhead_head (Pos.to_uint p)) as Hhead.
  unfold Decimal.unorm in Hnorm.
  destruct (Decimal.nzhead (Pos.to_uint p)) eqn:Hnz; try done;
    rewrite Hnorm in Hp |- *; done.
Qed.

Lemma decimal_head p :
  ∃ c d, decimal (Z.pos p) = c :: d ∧ is_digit c = true ∧ (1 ≤ digit_value c)%Z.
Proof.
  rewrite decimal_pos. pose proof (to_uint_head p) as Hhead.
  destruct (Pos.to_uint p); try done; simpl; do 2 eexists; (split; [done|]);
    (split; [done|]); by vm_compute.
Qed.

(** The length of the decimal text of a positive integer is its number
    of digits. *)
Lemma decimal_length p n :
  length (decimal (Z.pos p)) ≤ n ↔ (Z.pos p < 10 ^ Z.of_nat n)%Z.
Proof.
  destruct (decimal_digits p) as (_ & Hd & Hv).
  destruct (decimal_head p) as (c & d & Hcd & Hc & Hone).
  split.
  - intros Hlen. pose proof (digits_value_bound _ 0 Hd ltac:(done)) as [_ Hupper].
    rewrite Hv in Hupper.
    assert (10 ^ Z.of_nat (length (decimal (Z.pos p))) ≤ 10 ^ Z.of_nat n)%Z
      by (apply Z.pow_le_mono_r; lia).
    lia.
  - intros Hlt. destruct (Nat.le_gt_cases (length (decimal (Z.pos p))) n) as [|Hgt];
      [done|exfalso].
    rewrite Hcd in Hv, Hgt, Hd. simpl in Hd. apply andb_true_iff in Hd as [_ Hd].
    change (digits_value 0 (c :: d)) with (digits_value (10 * 0 + digit_value c) d) in Hv.
    pose proof (digits_value_bound d (10 * 0 + digit_value c) Hd ltac:(lia)) as [Hlower _].
    rewrite Hv in Hlower. simpl in Hgt.
    assert (10 ^ Z.of_nat n ≤ 10 ^ Z.of_nat (length d))%Z
      by (apply Z.pow_le_mono_r; lia).
    assert (0 < 10 ^ Z.of_nat (length d))%Z by (apply Z.pow_pos_nonneg; lia).
    nia.
Qed.

Lemma decimal_neg p : decimal (Z.neg p) = "-" :: decimal (Z.pos p).
Proof.
  rewrite decimal_pos. unfold decimal. simpl. pose proof (to_uint_not_Nil p).
  by destruct (Pos.to_uint p).
Qed.

Lemma decimal_abs_length z :
  length (decimal (Z.abs z)) ≤ int_max_str_digits ↔ within_limit z.
Proof.
  unfold within_limit. destruct z as [|p|p]; simpl Z.abs.
  - split; intros _.
    + apply Z.pow_pos_nonneg; lia.
    + unfold int_max_str_digits. simpl. lia.
  - apply decimal_length.
  - apply decimal_length.
Qed.

(** [str] returns the decimal text exactly when the integer is within
    the limit. *)
Lemma py_str_Return z : within_limit z → py_str z = Return (decimal z).
Proof.
  intros Hz%decimal_abs_length. unfold py_str.
  by destruct (Nat.ltb_spec int_max_str_digits (length (decimal (Z.abs z)))); [lia|].
Qed.

Lemma py_str_Raise z : ¬ within_limit z → py_str z = Raise (ValueError DigitLimit).
Proof.
  intros Hz. unfold py_str.
  destruct (Nat.ltb_spec int_max_str_digits (length (decimal (Z.abs z)))); [done|].
  by apply decimal_abs_length in H.
Qed.

Lemma py_str_inv z t : py_str z = Return t → within_limit z ∧ t = decimal z.
Proof.
  unfold py_str.
  destruct (Nat.ltb_spec int_max_str_digits (length (decimal (Z.abs z)))); [done|].
  intros [= <-]. split; [|done]. by apply decimal_abs_length.
Qed.

(** [int] reads the decimal text of an integer within the limit back as
    that integer. *)
Lemma py_int_decimal z : within_limit z → py_int (decimal z) = Return z.
Proof.
  intros Hz%decimal_abs_length. destruct z as [|p|p].
  - by vm_compute.
  - destruct (decimal_digits p) as (Hne & Hd & Hv).
    by rewrite py_int_digits, Hv.
  - change (Z.abs (Z.neg p)) with (Z.pos p) in Hz.
    destruct (decimal_digits p) as (Hne & Hd & Hv).
    unfold py_int. rewrite decimal_neg.
    rewrite strip_no_space by (simpl; by apply digits_no_space).
    cbn [split_sign]. lazy beta iota.
    rewrite (span_digits _ Hd), (int_digits_digits _ 0 false Hd (or_intror Hne)).
    rewrite (count_digits_digits _ Hd), Hv.
    by destruct (Nat.ltb_spec int_max_str_digits (length (decimal (Z.pos p)))); [lia|].
Qed.

(** The bitwise AND of two integers of which one is not negative lies
    between 0 and that one. *)
Lemma land_le a b : (0 ≤ a)%Z → (0 ≤ Z.land a b ≤ a)%Z.
Proof.
  intros Ha. split; [apply Z.land_nonneg; by left|].
  assert (Z.land (Z.ldiff a b) (Z.land a b) = 0)%Z as Hdisjoint.
  { by rewrite (Z.land_comm a b), Z.land_assoc, Z.land_ldiff, Z.land_0_l. }
  pose proof (Z.add_lor_land (Z.ldiff a b) (Z.land a b)) as Hadd.
  rewrite Hdisjoint, Z.lor_ldiff_and in Hadd.
  assert (0 ≤ Z.ldiff a b)%Z by (apply Z.ldiff_nonneg; by left).
  lia.
Qed.

Lemma land_within_limit a b :
  within_limit a → within_limit b → (0 ≤ a ∨ 0 ≤ b)%Z → within_limit (Z.land a b).
Proof.
  unfold within_limit. intros Ha Hb [Hpos|Hpos].
  - pose proof (land_le a b Hpos). lia.
  - pose proof (land_le b a Hpos) as Hle. rewrite Z.land_comm in Hle. lia.
Qed.

Lemma map_int_within_limit pieces zs :
  map_int pieces = Return zs → Forall within_limit zs.
Proof.
  revert zs. induction pieces as [|piece pieces IH]; intros zs; simpl.
  - intros [= <-]. constructor.
  - destruct (py_int piece) as [z| |] eqn:Hz; [|done..]. cbn [mbind outcome_bind].
    destruct (map_int pieces) as [zs'| |]; [|done..]. cbn [mbind outcome_bind].
    intros [= <-]. constructor; [by eapply py_int_within_limit|by apply IH].
Qed.
End DecimalFacts.

(** ** One turn of the loop *)

(** The node a turn works with: the stored node holding the value when
    there is one, the node just built otherwise. *)
Lemma resolve_node g v default :
  value default = v →
  ∃ n, except_ValueError_pass (get_node g v) default = Return n ∧ value n = v ∧
       (n ∈ _nodes g ∨ (n = default ∧ has_node g n = false)).
Proof.
  intros Hv. destruct (get_node g v) as [n| |] eqn:Hget.
  - apply get_node_Return in Hget as [Hin Hn]. exists n. auto.
  - destruct (get_node_Raise g v) as [Hraise Hhas]; [congruence|].
    rewrite Hget in Hraise. injection Hraise as ->. exists default. simpl.
    split; [done|]. split; [done|]. right. split; [done|].
    by rewrite (has_node_same_value g default (mkNode 0 v)).
  - destruct (get_node_Raise g v) as [Hraise _]; congruence.
Qed.

Lemma NAND_output_fresh fresh a b :
  ∃ out, NAND_output fresh (NAND_init a b) = Return (out, mkNAND a b (Some out)) ∧
         ident out = fresh ∧ NAND_value (value a) (value b) = Some (value out).
Proof.
  unfold NAND_output, NAND_init. cbn [_output input_a input_b].
  destruct (NAND_value_is_Some (value a) (value b)) as [v ->]. by eexists.
Qed.

Lemma NAND_output_cached fresh a b out :
  NAND_output fresh (mkNAND a b (Some out)) = Return (out, mkNAND a b (Some out)).
Proof. done. Qed.

Lemma py_int_cases s :
  (∃ z, py_int s = Return z) ∨
  (∃ why, py_int s = Raise (ValueError why) ∧ conversion_error why).
Proof.
  unfold py_int.
  destruct (split_sign (strip s)) as [negative body].
  destruct (span _ body) as [run rest].
  destruct (int_digits 0 false run) as [z|].
  - destruct (int_max_str_digits <? count_digits run)%nat.
    + right. eexists. split; [done|]. by left.
    + destruct rest.
      * left. by eexists.
      * right. eexists. split; [done|]. right. by eexists.
  - right. eexists. split; [done|]. right. by eexists.
Qed.

Lemma py_str_cases z :
  py_str z = Return (decimal z) ∨ py_str z = Raise (ValueError DigitLimit).
Proof.
  unfold py_str.
  destruct (int_max_str_digits <? length (decimal (Z.abs z)))%nat; auto.
Qed.

(** What a turn can do: fail in a conversion, fail on the dictionary
    access of [add_edge] (only from a graph that is not [keyed]), or
    rewrite the text. *)
Lemma reduce_step_cases g fresh s m :
  (∃ why, reduce_step g fresh s m = Raise (ValueError why) ∧ conversion_error why) ∨
  (∃ k, reduce_step g fresh s m = Raise (KeyError k) ∧ ¬ keyed g) ∨
  (∃ g' out, reduce_step g fresh s m
               = Return (g', fresh + 3, replace (group0 m) (decimal out) s) ∧
             (keyed g → keyed g')).
Proof.
  unfold reduce_step.
  destruct (py_int_cases (group1 m)) as [[v1 ->]|(why & -> & ?)]; [|left; by eexists].
  cbn [mbind outcome_bind].
  destruct (py_int_cases (group2 m)) as [[v2 ->]|(why & -> & ?)]; [|left; by eexists].
  cbn [mbind outcome_bind value].
  destruct (resolve_node g v1 (mkNode fresh v1) eq_refl) as (n1 & -> & Hv1 & Hn1).
  destruct (resolve_node g v2 (mkNode (fresh + 1) v2) eq_refl) as (n2 & -> & Hv2 & Hn2).
  cbn [mbind outcome_bind].
  destruct (add_node_ignore g n1) as (g1 & -> & Hhas1 & Hmono1 & _ & Hnew1 & Hsub1 & Hkey1).
  cbn [mbind outcome_bind].
  destruct (add_node_ignore g1 n2) as (g2 & -> & Hhas2 & Hmono2 & _ & _ & Hsub2 & Hkey2).
  cbn [mbind outcome_bind].
  assert (n1 ∈ _nodes g2) as Hin1.
  { apply Hsub2. destruct Hn1 as [Hin|[_ Hfalse]]; [by apply Hsub1|by apply Hnew1]. }
  destruct (_edges g2 !! n1) as [dests|] eqn:Hdests.
  - destruct (add_edge_keyed g2 (NAND_init n1 n2)) as (g3 & -> & _ & Hkey3 & _);
      [by apply Hmono2|done|by eexists|].
    cbn [mbind outcome_bind].
    destruct (NAND_output_fresh (fresh + 2) n1 n2) as (out & -> & _ & _).
    cbn [mbind outcome_bind].
    destruct (add_node_ignore g3 out) as (g4 & -> & _ & _ & _ & _ & _ & Hkey4).
    cbn [mbind outcome_bind]. rewrite NAND_output_cached. cbn [mbind outcome_bind].
    destruct (py_str_cases (value out)) as [->| ->]; cbn [mbind outcome_bind].
    + right. right. exists g4, (value out). split; [done|]. auto.
    + left. eexists. split; [done|]. by left.
  - right. left. exists n1. split.
    + unfold add_edge, NAND_init. cbn [input_a input_b].
      rewrite (Hmono2 n1 Hhas1), Hhas2, Hdests. done.
    + intros Hkeyed. destruct (Hkey2 (Hkey1 Hkeyed) n1 Hin1) as [? Hsome]. congruence.
Qed.

(** What a turn that returns has done to the text: both operands were
    read, the output of the gate is within the limit of [str], and every
    copy of the matched text has been replaced by its decimal text. *)
Lemma reduce_step_Return g fresh s m g' fresh' s' :
  reduce_step g fresh s m = Return (g', fresh', s') →
  ∃ v1 v2 out,
    py_int (group1 m) = Return v1 ∧ py_int (group2 m) = Return v2 ∧
    NAND_value v1 v2 = Some out ∧ within_limit out ∧
    fresh' = fresh + 3 ∧ s' = replace (group0 m) (decimal out) s.
Proof.
  unfold reduce_step.
  destruct (py_int (group1 m)) as [v1| |]; [|done..].
  destruct (py_int (group2 m)) as [v2| |]; [|done..].
  cbn [mbind outcome_bind value].
  destruct (resolve_node g v1 (mkNode fresh v1) eq_refl) as (n1 & -> & Hv1 & _).
  destruct (resolve_node g v2 (mkNode (fresh + 1) v2) eq_refl) as (n2 & -> & Hv2 & _).
  cbn [mbind outcome_bind].
  destruct (add_node_ignore g n1) as (g1 & -> & _).
  cbn [mbind outcome_bind].
  destruct (add_node_ignore g1 n2) as (g2 & -> & _).
  cbn [mbind outcome_bind].
  destruct (add_edge g2 (NAND_init n1 n2)) as [g3| |]; [|done..].
  cbn [mbind outcome_bind].
  destruct (NAND_output_fresh (fresh + 2) n1 n2) as (out & -> & _ & Hout).
  cbn [mbind outcome_bind].
  destruct (add_node_ignore g3 out) as (g4 & -> & _).
  cbn [mbind outcome_bind]. rewrite NAND_output_cached. cbn [mbind outcome_bind].
  destruct (py_str (value out)) as [t| |] eqn:Hstr; [|done..].
  apply py_str_inv in Hstr as [Hlimit ->]. cbn [mbind outcome_bind].
  intros [= <- <- <-]. exists v1, v2, (value out).
  rewrite Hv1, Hv2 in Hout. done.
Qed.

(** From a [keyed] graph, a turn fails in a conversion or rewrites the
    text and leaves the graph [keyed]. *)
Lemma reduce_step_keyed g fresh s m :
  keyed g →
  (∃ why, reduce_step g fresh s m = Raise (ValueError why) ∧ conversion_error why) ∨
  (∃ g' out, reduce_step g fresh s m
               = Return (g', fresh + 3, replace (group0 m) (decimal out) s) ∧
             keyed g').
Proof.
  intros Hkeyed. destruct (reduce_step_cases g fresh s m) as [?|[(k & _ & Hno)|Hret]].
  - by left.
  - done.
  - right. destruct Hret as (g' & out & ? & ?). exists g', out. auto.
Qed.

(** The text a turn leaves holds fewer ['!'] than the text it found. *)
Lemma reduce_step_decreases g fresh s m g' fresh' s' :
  search s = Some m →
  reduce_step g fresh s m = Return (g', fresh', s') →
  count_bang s' < count_bang s.
Proof.
  intros (pre & rest & Hs & Hhere)%search_inv Hstep.
  apply match_here_inv in Hhere as (c & _ & _ & Hgroup & _).
  destruct (reduce_step_cases g fresh s m)
    as [(? & Hr & _)|[(? & Hr & _)|(? & out & Hr & _)]];
    rewrite Hr in Hstep; try done.
  injection Hstep as _ _ <-. rewrite Hs.
  apply replace_count_lt; [apply decimal_no_bang|].
  rewrite Hgroup. simpl. lia.
Qed.

(** ** The loop *)

Lemma search_count_pos s m : search s = Some m → 0 < count_bang s.
Proof.
  intros (pre & rest & -> & Hhere)%search_inv.
  apply match_here_inv in Hhere as (c & _ & _ & -> & _).
  rewrite !count_bang_app. simpl. lia.
Qed.

(** A bound of one turn for each ['!'] of the text is never exhausted. *)
Lemma reduce_never_out_of_fuel fuel g fresh s :
  count_bang s ≤ fuel → reduce fuel g fresh s ≠ OutOfFuel.
Proof.
  revert g fresh s. induction fuel as [|fuel IH]; intros g fresh s Hfuel.
  - simpl. destruct (search s) as [m|] eqn:Hsearch; [|done].
    apply search_count_pos in Hsearch. lia.
  - simpl. destruct (search s) as [m|] eqn:Hsearch; [|done].
    destruct (reduce_step g fresh s m) as [[[g' fresh'] s']| |] eqn:Hstep.
    + cbn [mbind outcome_bind]. apply IH.
      pose proof (reduce_step_decreases _ _ _ _ _ _ _ Hsearch Hstep). lia.
    + done.
    + destruct (reduce_step_cases g fresh s m)
        as [(? & Hr & _)|[(? & Hr & _)|(? & ? & Hr & _)]]; congruence.
Qed.

(** Any two sufficient bounds give the same run. *)
Lemma reduce_fuel_irrelevant fuel fuel' g fresh s :
  count_bang s ≤ fuel → count_bang s ≤ fuel' →
  reduce fuel g fresh s = reduce fuel' g fresh s.
Proof.
  revert fuel' g fresh s.
  induction fuel as [|fuel IH]; intros fuel' g fresh s Hfuel Hfuel'.
  - destruct fuel'; simpl; destruct (search s) as [m|] eqn:Hsearch; try done.
    apply search_count_pos in Hsearch. lia.
  - destruct fuel' as [|fuel']; simpl; destruct (search s) as [m|] eqn:Hsearch; try done.
    { apply search_count_pos in Hsearch. lia. }
    destruct (reduce_step g fresh s m) as [[[g1 fresh1] s1]| |] eqn:Hstep; try done.
    cbn [mbind outcome_bind].
    pose proof (reduce_step_decreases _ _ _ _ _ _ _ Hsearch Hstep).
    apply IH; lia.
Qed.

(** From a [keyed] graph the loop ends with a text that has no match
    left, or fails in a conversion. *)
Lemma reduce_keyed fuel g fresh s :
  keyed g → count_bang s ≤ fuel →
  (∃ why, reduce fuel g fresh s = Raise (ValueError why) ∧ conversion_error why) ∨
  (∃ g' s', reduce fuel g fresh s = Return (g', s') ∧ search s' = None ∧ keyed g').
Proof.
  revert g fresh s. induction fuel as [|fuel IH]; intros g fresh s Hkeyed Hfuel.
  - simpl. destruct (search s) as [m|] eqn:Hsearch.
    + apply search_count_pos in Hsearch. lia.
    + right. by exists g, s.
  - simpl. destruct (search s) as [m|] eqn:Hsearch; [|right; by exists g, s].
    destruct (reduce_step_keyed g fresh s m Hkeyed)
      as [(why & Hr & ?)|(g' & out & Hr & Hkeyed')].
    + left. exists why. by rewrite Hr.
    + pose proof (reduce_step_decreases _ _ _ _ _ _ _ Hsearch Hr).
      rewrite Hr. cbn [mbind outcome_bind]. apply IH; [done|lia].
Qed.

(** ** The final combination *)

Lemma split_not_nil sep s : split sep s ≠ [].
Proof.
  destruct s as [|c s]; simpl; [done|].
  destruct (Ascii.eqb c sep); [done|]. by destruct (split sep s).
Qed.

Lemma map_int_cases pieces :
  (∃ why, map_int pieces = Raise (ValueError why) ∧ conversion_error why) ∨
  (∃ zs, map_int pieces = Return zs ∧ length zs = length pieces).
Proof.
  induction pieces as [|piece pieces IH]; cbn [map_int].
  - right. by exists [].
  - destruct (py_int_cases piece) as [[z ->]|(why & -> & ?)]; [|left; by eexists].
    cbn [mbind outcome_bind].
    destruct IH as [(why & -> & ?)|(zs & -> & Hlen)]; [left; by eexists|].
    right. exists (z :: zs). simpl. by rewrite Hlen.
Qed.

(** [finalize] returns, fails in the conversion of a piece, or reaches
    the [raise] statement with more than two pieces. *)
Lemma finalize_cases s :
  (∃ z, finalize s = Return z) ∨
  (∃ why, finalize s = Raise (ValueError why) ∧ conversion_error why) ∨
  (finalize s = raise_InvalidInputError "Input is not in the expected format" ∧
   2 < length (split "." s)).
Proof.
  unfold finalize.
  destruct (map_int_cases (split "." s)) as [(why & -> & ?)|(zs & -> & Hlen)].
  { right. left. by exists why. }
  cbn [mbind outcome_bind]. pose proof (split_not_nil "." s) as Hne.
  destruct zs as [|a [|b [|c zs]]].
  - destruct (split "." s); done.
  - left. by eexists.
  - left. by eexists.
  - right. right. split; [done|]. rewrite <- Hlen. simpl. lia.
Qed.

Lemma finalize_one s a : map_int (split "." s) = Return [a] → finalize s = Return a.
Proof. unfold finalize. by intros ->. Qed.

Lemma finalize_two s a b :
  map_int (split "." s) = Return [a; b] → finalize s = Return (Z.land a b).
Proof. unfold finalize. by intros ->. Qed.

(** With more than two operands the [raise] statement is reached; building
    the exception it names fails first. *)
Lemma finalize_many s zs :
  map_int (split "." s) = Return zs → 2 < length zs →
  finalize s = raise_InvalidInputError "Input is not in the expected format" ∧
  finalize s = Raise (TypeError "super() argument 1 must be type, not str").
Proof.
  unfold finalize. intros -> Hlen. cbn [mbind outcome_bind].
  destruct zs as [|a [|b [|c zs]]]; simpl in Hlen; try lia. done.
Qed.

(** ** parse_input *)

Lemma parse_text_cases s :
  (∃ g z, parse_text s = Return (g, z)) ∨
  (∃ why, parse_text s = Raise (ValueError why) ∧ conversion_error why) ∨
  (parse_text s = raise_InvalidInputError "Input is not in the expected format" ∧
   ∃ g s', reduce (count_bang s) Graph_init 0 s = Return (g, s') ∧
           2 < length (split "." s')).
Proof.
  unfold parse_text.
  destruct (reduce_keyed (count_bang s) Graph_init 0 s keyed_init (le_n _))
    as [(why & -> & ?)|(g & s' & Hr & _ & _)].
  { right. left. by exists why. }
  rewrite Hr. cbn [mbind outcome_bind].
  destruct (finalize_cases s') as [(z & ->)|[(why & -> & ?)|(Hf & Hlen)]].
  - cbn [mbind outcome_bind]. unfold print_output.
    destruct (py_str_cases z) as [->| ->]; cbn [mbind outcome_bind].
    + left. by exists g, z.
    + right. left. eexists. split; [done|]. by left.
  - right. left. by exists why.
  - right. right. rewrite Hf. split; [done|]. by exists g, s'.
Qed.

(** * The claims *)

(** C2.  The text ["1.2.3"] holds no NAND group and splits into three
    integer operands: [parse_input] reaches the statement that raises the
    invalid-input-format error, and what comes out is the [TypeError] of
    the exception's own constructor, not an [InvalidInputError]. *)
Theorem parse_input_three_operands :
  map_int (split "." (list_ascii_of_string "1.2.3")) = Return [1; 2; 3]%Z ∧
  parse_input "1.2.3" = raise_InvalidInputError "Input is not in the expected format" ∧
  parse_input "1.2.3" = Raise (TypeError "super() argument 1 must be type, not str").
Proof. by vm_compute. Qed.

(** C3.  A graph holding one node of value 5: an edge whose source is
    another node of value 5 passes the presence test and fails with
    [KeyError] on the dictionary access; and two edges from the stored node
    to two distinct nodes of value 5 leave two destinations of value 5. *)
Theorem add_edge_by_identity :
  let a := mkNode 0 5 in
  let g := mkGraph {[a]} {[a := ∅]} in
  add_node Graph_init a false = Return g ∧
  has_node g (mkNode 1 5) = true ∧
  add_edge g (NAND_init (mkNode 1 5) a) = Raise (KeyError (mkNode 1 5)) ∧
  ∃ g1 g2,
    add_edge g (NAND_init a (mkNode 1 5)) = Return g1 ∧
    add_edge g1 (NAND_init a (mkNode 2 5)) = Return g2 ∧
    destination_values g2 a = [5; 5]%Z.
Proof. simpl. repeat split. do 2 eexists. repeat split. Qed.



(** C5.  The scanner matches ["!(1a2)"], whose operands are separated by
    the letter a, with the groups ["1"] and ["2"]; the group is reduced
    and [parse_input] returns 15. *)
Theorem search_wildcard_separator :
  search (list_ascii_of_string "!(1a2)")
    = Some (mkMatch (list_ascii_of_string "!(1a2)")
              (list_ascii_of_string "1") (list_ascii_of_string "2")) ∧
  parse_input "!(1a2)"
    = Return (mkGraph {[mkNode 0 1; mkNode 1 2; mkNode 2 15]}
                {[mkNode 0 1 := {[mkNode 1 2]}; mkNode 1 2 := ∅; mkNode 2 15 := ∅]},
              15%Z).
Proof. by vm_compute. Qed.

(** C6.  [parse_input] on ["!(10.20).!(30.40)"] returns; the vertices are
    the four inputs 10, 20, 30, 40 and the two outputs, 15 for the gate on
    10 and 20 and 7 for the gate on 30 and 40; the only edges are 10 to 20
    and 30 to 40; the result is the bitwise AND of the two outputs. *)
Theorem parse_input_two_groups :
  let n10 := mkNode 0 10 in let n20 := mkNode 1 20 in let o1 := mkNode 2 15 in
  let n30 := mkNode 3 30 in let n40 := mkNode 4 40 in let o2 := mkNode 5 7 in
  NAND_value 10 20 = Some 15%Z ∧
  NAND_value 30 40 = Some 7%Z ∧
  parse_input "!(10.20).!(30.40)"
    = Return (mkGraph {[n10; n20; o1; n30; n40; o2]}
                {[n10 := {[n20]}; n20 := ∅; o1 := ∅;
                  n30 := {[n40]}; n40 := ∅; o2 := ∅]},
              Z.land 15 7).
Proof. by vm_compute. Qed.

(** C7.  Whatever the graph and the two nodes, once both have been added
    with [ignore_errors=True] their values are present, so [add_edge] on
    them does not raise 'Nodes not present in the Graph!'; no turn of the
    loop raises it, from any graph, and no run of [parse_input] does. *)
Theorem add_edge_endpoints_present :
  (∀ g node1 node2 g1 g2,
     add_node g node1 true = Return g1 →
     add_node g1 node2 true = Return g2 →
     has_node g2 node1 = true ∧ has_node g2 node2 = true ∧
     add_edge g2 (NAND_init node1 node2) ≠ Raise (ValueError NodesNotPresent)) ∧
  (∀ g fresh s m, reduce_step g fresh s m ≠ Raise (ValueError NodesNotPresent)) ∧
  (∀ input_string, parse_input input_string ≠ Raise (ValueError NodesNotPresent)).
Proof.
  split; [|split].
  - intros g node1 node2 g1 g2 H1 H2.
    destruct (add_node_ignore g node1) as (g1' & Hg1 & Hhas1 & _).
    destruct (add_node_ignore g1 node2) as (g2' & Hg2 & Hhas2 & Hmono2 & _).
    assert (g1' = g1) as -> by congruence. assert (g2' = g2) as -> by congruence.
    split; [by apply Hmono2|]. split; [done|].
    rewrite add_edge_not_present. cbn [NAND_init input_a input_b].
    rewrite (Hmono2 node1 Hhas1), Hhas2. by intros [|].
  - intros g fresh s m.
    destruct (reduce_step_cases g fresh s m)
      as [(? & -> & [->|[? ->]])|[(? & -> & _)|(? & ? & -> & _)]]; done.
  - intros input_string. unfold parse_input.
    destruct (parse_text_cases (list_ascii_of_string input_string))
      as [(? & ? & ->)|[(? & -> & [->|[? ->]])|[-> _]]]; done.
Qed.

Lemma add_edge_endpoints_present_witness :
  let g2 := mkGraph {[mkNode 0 1; mkNode 1 2]} {[mkNode 0 1 := ∅; mkNode 1 2 := ∅]} in
  has_node g2 (mkNode 0 1) = true ∧ has_node g2 (mkNode 1 2) = true ∧
  add_edge g2 (NAND_init (mkNode 0 1) (mkNode 1 2)) ≠ Raise (ValueError NodesNotPresent).
Proof.
  apply (proj1 add_edge_endpoints_present Graph_init (mkNode 0 1) (mkNode 1 2)
           (mkGraph {[mkNode 0 1]} {[mkNode 0 1 := ∅]})).
  - vm_compute. reflexivity.
  - vm_compute. reflexivity.
Defined.

(** C8.  The loop terminates on every input.  A turn that returns has
    read the two operands of the match, and has replaced every copy of
    the matched text that a scan from left to right meets (there is at
    least one) by the decimal text of the output of the gate, which holds
    no ['!']: the text it leaves is the only one so obtained, and it
    holds strictly fewer ['!'] than the text it found.  So a bound of one
    turn for each ['!'] is never exhausted, any larger bound gives the
    same run, and [parse_input] never runs out of turns. *)
Theorem reduce_terminates :
  (∀ g fresh s m g' fresh' s',
     search s = Some m →
     reduce_step g fresh s m = Return (g', fresh', s') →
     count_bang s' < count_bang s ∧
     (∃ pre rest, s = pre ++ group0 m ++ rest) ∧
     ∃ v1 v2 out,
       py_int (group1 m) = Return v1 ∧ py_int (group2 m) = Return v2 ∧
       NAND_value v1 v2 = Some out ∧
       count_bang (decimal out) = 0 ∧
       replaced_all (group0 m) (decimal out) s s' ∧
       ∀ s'', replaced_all (group0 m) (decimal out) s s'' → s'' = s') ∧
  (∀ fuel g fresh s,
     count_bang s ≤ fuel →
     reduce fuel g fresh s ≠ OutOfFuel ∧
     reduce fuel g fresh s = reduce (count_bang s) g fresh s) ∧
  (∀ input_string, parse_input input_string ≠ OutOfFuel).
Proof.
  split; [|split].
  - intros g fresh s m g' fresh' s' Hsearch Hstep.
    split; [by eapply reduce_step_decreases|].
    destruct (search_inv s m Hsearch) as (pre & rest & Hs & Hhere).
    split; [by exists pre, rest|].
    destruct (match_here_inv _ _ Hhere) as (c & ? & _ & Hgroup & _).
    assert (group0 m ≠ []) as Hne by (by rewrite Hgroup).
    destruct (reduce_step_Return _ _ _ _ _ _ _ Hstep)
      as (v1 & v2 & out & H1 & H2 & Hout & _ & _ & ->).
    exists v1, v2, out. repeat (split; [done|]).
    split; [apply decimal_no_bang|].
    split; [by apply replace_replaced_all|].
    intros s'' Hs''. eapply replaced_all_unique; [done|done|].
    by apply replace_replaced_all.
  - intros fuel g fresh s Hfuel. split.
    + by apply reduce_never_out_of_fuel.
    + by apply reduce_fuel_irrelevant.
  - intros input_string. unfold parse_input.
    destruct (parse_text_cases (list_ascii_of_string input_string))
      as [(? & ? & ->)|[(? & -> & _)|[-> _]]]; done.
Qed.

Lemma reduce_terminates_witness :
  let s := list_ascii_of_string "!(1.2).3" in
  let s' := list_ascii_of_string "15.3" in
  let m := mkMatch (list_ascii_of_string "!(1.2)")
             (list_ascii_of_string "1") (list_ascii_of_string "2") in
  count_bang s' < count_bang s ∧
  (∃ pre rest, s = pre ++ group0 m ++ rest) ∧
  ∃ v1 v2 out,
    py_int (group1 m) = Return v1 ∧ py_int (group2 m) = Return v2 ∧
    NAND_value v1 v2 = Some out ∧
    count_bang (decimal out) = 0 ∧
    replaced_all (group0 m) (decimal out) s s' ∧
    ∀ s'', replaced_all (group0 m) (decimal out) s s'' → s'' = s'.
Proof.
  apply (proj1 reduce_terminates Graph_init 0 (list_ascii_of_string "!(1.2).3")
           (mkMatch (list_ascii_of_string "!(1.2)")
              (list_ascii_of_string "1") (list_ascii_of_string "2"))
           (mkGraph {[mkNode 0 1; mkNode 1 2; mkNode 2 15]}
              {[mkNode 0 1 := {[mkNode 1 2]}; mkNode 1 2 := ∅; mkNode 2 15 := ∅]})
           3).
  - vm_compute. reflexivity.
  - vm_compute. reflexivity.
Defined.

(** C8, counterexample.  On ["!(1.2).!(1.2)"] the first turn replaces both
    groups at once: the text goes from two ['!'] to none. *)
Lemma reduce_step_two_groups :
  ∃ g' fresh',
    search (list_ascii_of_string "!(1.2).!(1.2)")
      = Some (mkMatch (list_ascii_of_string "!(1.2)")
                (list_ascii_of_string "1") (list_ascii_of_string "2")) ∧
    reduce_step Graph_init 0 (list_ascii_of_string "!(1.2).!(1.2)")
      (mkMatch (list_ascii_of_string "!(1.2)")
         (list_ascii_of_string "1") (list_ascii_of_string "2"))
      = Return (g', fresh', list_ascii_of_string "15.15") ∧
    count_bang (list_ascii_of_string "!(1.2).!(1.2)") = 2 ∧
    count_bang (list_ascii_of_string "15.15") = 0.
Proof. do 2 eexists. vm_compute. repeat split. Qed.

(** The text a turn removes can come about again: on
    ["!(1!(115.0).0)"] the turn replaces the inner group ["!(115.0)"] by
    ["15"], and the text it leaves is ["!(115.0)"]. *)
Lemma reduce_step_text_again :
  ∃ g' fresh',
    search (list_ascii_of_string "!(1!(115.0).0)")
      = Some (mkMatch (list_ascii_of_string "!(115.0)")
                (list_ascii_of_string "115") (list_ascii_of_string "0")) ∧
    reduce_step Graph_init 0 (list_ascii_of_string "!(1!(115.0).0)")
      (mkMatch (list_ascii_of_string "!(115.0)")
         (list_ascii_of_string "115") (list_ascii_of_string "0"))
      = Return (g', fresh', list_ascii_of_string "!(115.0)").
Proof. do 2 eexists. vm_compute. repeat split. Qed.

(** C9, an instance: a first node of value 5 is added with an empty
    destination set. *)
Lemma add_node_spec_witness :
  add_node Graph_init (mkNode 0 5) false
    = Return (mkGraph ({[mkNode 0 5]} ∪ ∅) (<[mkNode 0 5 := ∅]> ∅)).
Proof.
  apply (proj1 (proj2 (add_node_spec Graph_init (mkNode 0 5) false))).
  vm_compute. reflexivity.
Defined.

(** C10.  When the text holds no match of the pattern, the loop makes no
    turn and hands back the graph and the text it was given, so a graph
    that [parse_input] returns is the empty one.  When the text is one
    integer literal, [parse_input] returns the empty graph with the
    literal; when it is two integer literals around a dot,
    [parse_input] returns the empty graph with their bitwise AND if that
    is within the limit of 4300 digits, as it is unless both are
    negative, and fails with the [ValueError] of the limit otherwise. *)
Theorem parse_input_no_group (input_string : string) :
  search (list_ascii_of_string input_string) = None →
  (∀ fuel g fresh,
     reduce fuel g fresh (list_ascii_of_string input_string)
       = Return (g, list_ascii_of_string input_string)) ∧
  (∀ g z, parse_input input_string = Return (g, z) → g = Graph_init) ∧
  (∀ a, map_int (split "." (list_ascii_of_string input_string)) = Return [a] →
        parse_input input_string = Return (Graph_init, a)) ∧
  (∀ a b, map_int (split "." (list_ascii_of_string input_string)) = Return [a; b] →
          ((0 ≤ a ∨ 0 ≤ b)%Z → within_limit (Z.land a b)) ∧
          (within_limit (Z.land a b) →
           parse_input input_string = Return (Graph_init, Z.land a b)) ∧
          (¬ within_limit (Z.land a b) →
           parse_input input_string = Raise (ValueError DigitLimit))).
Proof.
  intros Hsearch.
  assert (∀ fuel g fresh,
            reduce fuel g fresh (list_ascii_of_string input_string)
              = Return (g, list_ascii_of_string input_string)) as Hloop.
  { intros [|fuel] g fresh; simpl; by rewrite Hsearch. }
  split; [done|]. unfold parse_input, parse_text. rewrite Hloop.
  cbn [mbind outcome_bind]. split; [|split].
  - intros g z.
    destruct (finalize (list_ascii_of_string input_string)) as [output| |]; [|done..].
    cbn [mbind outcome_bind]. unfold print_output.
    destruct (py_str output); [|done..]. cbn [mbind outcome_bind]. congruence.
  - intros a Hsplit. rewrite (finalize_one _ a Hsplit). cbn [mbind outcome_bind].
    unfold print_output. rewrite py_str_Return; [done|].
    apply map_int_within_limit in Hsplit. by inversion Hsplit.
  - intros a b Hsplit. rewrite (finalize_two _ a b Hsplit). cbn [mbind outcome_bind].
    unfold print_output. split; [|split].
    + apply map_int_within_limit in Hsplit.
      inversion Hsplit as [|? ? Ha Hb']; subst. inversion Hb' as [|? ? Hb _]; subst.
      by apply land_within_limit.
    + intros Hlimit. by rewrite py_str_Return.
    + intros Hlimit. by rewrite py_str_Raise.
Qed.

Lemma parse_input_no_group_witness :
  (∀ fuel g fresh,
     reduce fuel g fresh (list_ascii_of_string "3.5")
       = Return (g, list_ascii_of_string "3.5")) ∧
  (∀ g z, parse_input "3.5" = Return (g, z) → g = Graph_init) ∧
  (∀ a, map_int (split "." (list_ascii_of_string "3.5")) = Return [a] →
        parse_input "3.5" = Return (Graph_init, a)) ∧
  (∀ a b, map_int (split "." (list_ascii_of_string "3.5")) = Return [a; b] →
          ((0 ≤ a ∨ 0 ≤ b)%Z → within_limit (Z.land a b)) ∧
          (within_limit (Z.land a b) →
           parse_input "3.5" = Return (Graph_init, Z.land a b)) ∧
          (¬ within_limit (Z.land a b) →
           parse_input "3.5" = Raise (ValueError DigitLimit))).
Proof.
  apply (parse_input_no_group "3.5"). vm_compute. reflexivity.
Defined.

(** C10, counterexample.  ["abc"] holds no match of the pattern, and
    [parse_input] does not return on it: [int] raises [ValueError]. *)
Lemma parse_input_no_group_raises :
  search (list_ascii_of_string "abc") = None ∧
  parse_input "abc" = Raise (ValueError (InvalidLiteral (list_ascii_of_string "abc"))).
Proof. by vm_compute. Qed.

(** * Further properties *)

(** X1.  [add_edge] raises 'Nodes not present in the Graph!' exactly when
    the value of one of the two inputs is held by no stored node; when
    both values are present and the source is itself a key of the
    dictionary, it returns a graph with the same vertices in which the
    destination is recorded for the source; and an edge that has just
    been added is added again without any change. *)
Theorem add_edge_spec (g : Graph) (edge : NAND) :
  (add_edge g edge = Raise (ValueError NodesNotPresent) ↔
     has_node g (input_a edge) = false ∨ has_node g (input_b edge) = false) ∧
  (has_node g (input_a edge) = true → has_node g (input_b edge) = true →
   is_Some (_edges g !! input_a edge) →
   ∃ g', add_edge g edge = Return g' ∧ _nodes g' = _nodes g ∧
         ∃ dests, _edges g' !! input_a edge = Some dests ∧ input_b edge ∈ dests) ∧
  (∀ g', add_edge g edge = Return g' → add_edge g' edge = Return g').
Proof.
  split; [apply add_edge_not_present|]. split.
  - intros Ha Hb Hkey.
    destruct (add_edge_keyed g edge Ha Hb Hkey) as (g' & ? & ? & _ & ?). by exists g'.
  - intros g' Hadd.
    destruct (has_node g (input_a edge)) eqn:Ha; cycle 1.
    { assert (add_edge g edge = Raise (ValueError NodesNotPresent)) as Hr
        by (apply add_edge_not_present; auto). congruence. }
    destruct (has_node g (input_b edge)) eqn:Hb; cycle 1.
    { assert (add_edge g edge = Raise (ValueError NodesNotPresent)) as Hr
        by (apply add_edge_not_present; auto). congruence. }
    destruct (_edges g !! input_a edge) as [dests|] eqn:Hdests; cycle 1.
    { unfold add_edge in Hadd. by rewrite Ha, Hb, Hdests in Hadd. }
    destruct (add_edge_keyed g edge Ha Hb) as (g1 & Hg1 & Hnodes & _ & dests' & Hd' & Hin);
      [by eexists|].
    assert (g1 = g') as -> by congruence.
    unfold add_edge, has_node. rewrite Hnodes. fold (has_node g (input_a edge)).
    fold (has_node g (input_b edge)). rewrite Ha, Hb, Hd'. simpl.
    by rewrite bool_decide_eq_false_2 by auto.
Qed.

(** X3.  Whatever [search] returns occurs in the text and is an
    exclamation mark, an opening parenthesis, digits, one character that
    is not a line feed, digits and a closing parenthesis; the two runs of
    digits are the captured groups. *)
Theorem search_match_shape (s : text) (m : Match) :
  search s = Some m →
  ∃ pre c rest,
    s = pre ++ group0 m ++ rest ∧
    group0 m = "!"%char :: "("%char :: group1 m ++ c :: group2 m ++ [")"%char] ∧
    forallb is_digit (group1 m) = true ∧
    forallb is_digit (group2 m) = true ∧
    c ≠ "010"%char.
Proof.
  intros (pre & rest & Hs & Hhere)%search_inv.
  apply match_here_inv in Hhere as (c & _ & _ & Hshape).
  by exists pre, c, rest.
Qed.

Lemma search_match_shape_witness :
  ∃ pre c rest,
    list_ascii_of_string "!(!(1.2).3)"
      = pre ++ list_ascii_of_string "!(1.2)" ++ rest ∧
    list_ascii_of_string "!(1.2)"
      = "!"%char :: "("%char :: list_ascii_of_string "1" ++ c
          :: list_ascii_of_string "2" ++ [")"%char] ∧
    forallb is_digit (list_ascii_of_string "1") = true ∧
    forallb is_digit (list_ascii_of_string "2") = true ∧
    c ≠ "010"%char.
Proof.
  apply (search_match_shape (list_ascii_of_string "!(!(1.2).3)")
           (mkMatch (list_ascii_of_string "!(1.2)")
              (list_ascii_of_string "1") (list_ascii_of_string "2"))).
  vm_compute. reflexivity.
Defined.

(** X4.  [str] and [int] agree within the limit of 4300 digits and
    [str] fails beyond it: for an integer of at most 4300 digits, [str]
    returns a text that [int] reads back as the same integer; for an
    integer of more digits, [str] raises the ValueError of the limit. *)
Theorem py_int_py_str (z : Z) :
  (Z.abs z < 10 ^ 4300 →
   ∃ t, py_str z = Return t ∧ py_int t = Return z)%Z ∧
  (10 ^ 4300 ≤ Z.abs z → py_str z = Raise (ValueError DigitLimit))%Z.
Proof.
  change 4300%Z with (Z.of_nat int_max_str_digits). split.
  - intros Hz. exists (decimal z). split; [by apply py_str_Return|by apply py_int_decimal].
  - intros Hz. apply py_str_Raise. unfold within_limit. lia.
Qed.

(** X5.  The output of a gate is computed once: a second read returns the
    very node of the first read and leaves the gate as it is, whatever
    identity is on offer; [reset] empties the cache and keeps the inputs,
    and the read after it builds a new node holding the same value. *)
Theorem NAND_output_memoized (a b : Node) (f1 f2 f3 : nat) :
  ∃ out gate,
    NAND_output f1 (NAND_init a b) = Return (out, gate) ∧
    ident out = f1 ∧
    NAND_output f2 gate = Return (out, gate) ∧
    NAND_reset gate = NAND_init a b ∧
    ∃ out' gate',
      NAND_output f3 (NAND_reset gate) = Return (out', gate') ∧
      ident out' = f3 ∧ value out' = value out.
Proof.
  destruct (NAND_output_fresh f1 a b) as (out & H1 & Hid & Hv).
  destruct (NAND_output_fresh f3 a b) as (out' & H3 & Hid' & Hv').
  exists out, (mkNAND a b (Some out)). split; [done|]. split; [done|].
  split; [done|]. split; [done|].
  exists out', (mkNAND a b (Some out')). split; [done|]. split; [done|]. congruence.
Qed.

Section GateFacts.
Local Open Scope Z_scope.

(** X6.  When one of the operands is non-negative, the output of the gate
    is the complement of [a & b] read as an unsigned number of [w] bits,
    [2 ^ w - 1 - (a & b)], for the first width [w] of 4, 8, 16, ... with
    [(a & b) + 1 < 2 ^ w]; it is never zero: operands whose AND fills a
    width are complemented in the next width. *)
Theorem NAND_value_complement (a b : Z) :
  0 ≤ a ∨ 0 ≤ b →
  ∃ k : nat,
    let w := 4 * 2 ^ Z.of_nat k in
    NAND_value a b = Some (2 ^ w - 1 - Z.land a b) ∧
    2 ^ w - 1 - Z.land a b = Z.lnot (Z.land a b) mod 2 ^ w ∧
    Z.land a b + 1 < 2 ^ w ∧
    (∀ j : nat, (j < k)%nat → 2 ^ (4 * 2 ^ Z.of_nat j) ≤ Z.land a b + 1) ∧
    0 < 2 ^ w - 1 - Z.land a b.
Proof.
  intros Hnonneg. apply Z.land_nonneg in Hnonneg.
  unfold NAND_value.
  destruct (widen_terminates (Z.lnot (Z.land a b))) as [w Hw]. rewrite Hw.
  apply widen_spec in Hw as (k & -> & Hfit & Hmin).
  assert (Z.abs (Z.lnot (Z.land a b)) = Z.land a b + 1) as Habs.
  { unfold Z.lnot. lia. }
  rewrite Habs in *. exists k. cbv zeta.
  split; [f_equal; lia|]. split.
  { apply Z.mod_unique_pos with (q := -1); unfold Z.lnot; lia. }
  split; [done|]. split; [done|]. lia.
Qed.

Lemma NAND_value_complement_witness :
  ∃ k : nat,
    let w := 4 * 2 ^ Z.of_nat k in
    NAND_value 15 15 = Some (2 ^ w - 1 - Z.land 15 15) ∧
    2 ^ w - 1 - Z.land 15 15 = Z.lnot (Z.land 15 15) mod 2 ^ w ∧
    Z.land 15 15 + 1 < 2 ^ w ∧
    (∀ j : nat, (j < k)%nat → 2 ^ (4 * 2 ^ Z.of_nat j) ≤ Z.land 15 15 + 1) ∧
    0 < 2 ^ w - 1 - Z.land 15 15.
Proof. apply (NAND_value_complement 15 15). left. lia. Defined.
End GateFacts.

(** ** Lookups *)

(** X7.  [get_node] raises 'No Node exists with the given value' exactly
    when no stored node holds the value, and otherwise returns a stored
    node holding it; in a graph without two nodes of equal value that is
    the one stored node of that value. *)
Theorem get_node_spec (g : Graph) (v : Z) :
  (get_node g v = Raise (ValueError NoNodeWithValue) ↔
     ∀ i, i ∈ _nodes g → value i ≠ v) ∧
  ((∃ i, i ∈ _nodes g ∧ value i = v) →
     ∃ node, get_node g v = Return node ∧ node ∈ _nodes g ∧ value node = v) ∧
  (∀ e, get_node g v = Raise e → e = ValueError NoNodeWithValue) ∧
  get_node g v ≠ OutOfFuel ∧
  (unique_values g → ∀ node, node ∈ _nodes g → value node = v →
     get_node g v = Return node).
Proof.
  assert (∀ node, get_node g v = Return node → node ∈ _nodes g ∧ value node = v)
    as Hret by (intros node; apply get_node_Return).
  assert ((∀ node, get_node g v ≠ Return node) →
          get_node g v = Raise (ValueError NoNodeWithValue) ∧
          ∀ i, i ∈ _nodes g → value i ≠ v) as Hmiss.
  { intros Hno. destruct (get_node_Raise g v Hno) as [Hr Hhas]. split; [done|].
    intros i Hi Hv. rewrite has_node_false in Hhas. by apply (Hhas i). }
  split; [split|split; [|split; [|split]]].
  - intros Hr. apply Hmiss. intros node Hn. congruence.
  - intros Hall. destruct (get_node g v) as [node| |] eqn:Hget.
    + destruct (Hret node eq_refl) as [Hin Hv]. by destruct (Hall node Hin).
    + destruct Hmiss as [Hr _]; [|congruence]. intros node Hn. congruence.
    + destruct Hmiss as [Hr _]; [|congruence]. intros node Hn. congruence.
  - intros (i & Hi & Hv). destruct (get_node g v) as [node| |] eqn:Hget.
    + exists node. destruct (Hret node eq_refl). auto.
    + destruct Hmiss as [_ Hall]; [intros node Hn; congruence|]. by destruct (Hall i Hi).
    + destruct Hmiss as [_ Hall]; [intros node Hn; congruence|]. by destruct (Hall i Hi).
  - intros e He. destruct Hmiss as [Hr _]; [intros node Hn; congruence|]. congruence.
  - intros Hout. destruct Hmiss as [Hr _]; [intros node Hn; congruence|]. congruence.
  - intros Huniq node Hin <-. by apply get_node_unique.
Qed.

(** X8.  In a graph without two nodes of equal value, after [add_node]
    returns, looking up the value of the node finds the node itself when
    its value was new, and every node stored before is still found under
    its value; so when the value was already held, the lookup finds the
    node stored earlier, not the one offered. *)
Theorem add_node_get_node (g g' : Graph) (node : Node) (ignore_errors : bool) :
  unique_values g →
  add_node g node ignore_errors = Return g' →
  (has_node g node = false → get_node g' (value node) = Return node) ∧
  (∀ m, m ∈ _nodes g → get_node g' (value m) = Return m).
Proof.
  intros Huniq Hadd.
  pose proof (add_node_unique_values _ _ _ _ Huniq Hadd) as Huniq'.
  unfold add_node in Hadd. destruct (has_node g node) eqn:Hhas.
  - case_bool_decide; [done|]. injection Hadd as <-.
    split; [done|]. intros m Hm. by apply get_node_unique.
  - injection Hadd as <-. split.
    + intros _. apply get_node_unique; [done|]. simpl. set_solver.
    + intros m Hm. apply get_node_unique; [done|]. simpl. set_solver.
Qed.

Lemma add_node_get_node_witness :
  let a := mkNode 0 5 in
  let g' := mkGraph {[a]} {[a := ∅]} in
  (has_node Graph_init a = false → get_node g' (value a) = Return a) ∧
  (∀ m, m ∈ _nodes Graph_init → get_node g' (value m) = Return m).
Proof.
  apply (add_node_get_node Graph_init (mkGraph {[mkNode 0 5]} {[mkNode 0 5 := ∅]})
           (mkNode 0 5) false unique_values_init).
  vm_compute. reflexivity.
Defined.

(** ** Graphs built through the interface *)

Lemma has_node_stored g n : n ∈ _nodes g → has_node g n = true.
Proof. intros Hn. apply has_node_true. by exists n. Qed.

Lemma add_node_Return g node ignore_errors g' :
  add_node g node ignore_errors = Return g' →
  (has_node g node = true ∧ g' = g) ∨
  (has_node g node = false ∧
   g' = mkGraph ({[node]} ∪ _nodes g) (<[node := ∅]> (_edges g))).
Proof.
  unfold add_node. destruct (has_node g node).
  - case_bool_decide; [done|]. intros [= <-]. by left.
  - intros [= <-]. by right.
Qed.

Lemma add_edge_Return g edge g' :
  add_edge g edge = Return g' →
  has_node g (input_a edge) = true ∧ has_node g (input_b edge) = true ∧
  ∃ dests, _edges g !! input_a edge = Some dests ∧
           g' = mkGraph (_nodes g)
                  (<[input_a edge := {[input_b edge]} ∪ dests]> (_edges g)).
Proof.
  unfold add_edge.
  destruct (has_node g (input_a edge)); [|done].
  destruct (has_node g (input_b edge)); [|done]. simpl.
  destruct (_edges g !! input_a edge) as [dests|] eqn:Hdests; [|done].
  case_bool_decide as Hin.
  - intros [= <-]. split; [done|]. split; [done|]. by exists dests.
  - intros [= <-]. split; [done|]. split; [done|]. exists dests. split; [done|].
    destruct g as [nodes edges]. simpl in *. f_equal.
    rewrite insert_id; [done|]. rewrite Hdests. f_equal.
    assert (input_b edge ∈ dests) by (by destruct (decide (input_b edge ∈ dests))).
    set_solver.
Qed.

Lemma has_node_mono g g' n :
  _nodes g ⊆ _nodes g' → has_node g n = true → has_node g' n = true.
Proof.
  intros Hsub (i & Hi & Hv)%has_node_true. apply has_node_true.
  exists i. split; [by apply Hsub|done].
Qed.

Lemma add_node_invariants g node ignore_errors g' :
  add_node g node ignore_errors = Return g' →
  dom (_edges g) = _nodes g → destinations_present g →
  dom (_edges g') = _nodes g' ∧ destinations_present g' ∧ grows g g'.
Proof.
  intros [[_ ->]|[Hhas ->]]%add_node_Return Hdom Hdest.
  { split; [done|]. split; [done|]. split; [done|]. intros s d ?. by exists d. }
  simpl. split; [|split; [|split]]; simpl.
  - by rewrite dom_insert_L, Hdom.
  - intros source dests d.
    destruct (decide (node = source)) as [->|Hne]; simpl.
    + rewrite lookup_insert_eq. intros [= <-]. set_solver.
    + rewrite lookup_insert_ne by done. intros Hs Hd.
      apply (has_node_mono g); [simpl; set_solver|]. by apply (Hdest source dests).
  - set_solver.
  - intros source dests Hs. exists dests. split; [|done].
    rewrite lookup_insert_ne; [done|]. intros ->.
    assert (source ∈ _nodes g) as Hin.
    { rewrite <- Hdom. apply elem_of_dom. by eexists. }
    apply has_node_stored in Hin. congruence.
Qed.

Lemma add_edge_invariants g edge g' :
  add_edge g edge = Return g' →
  dom (_edges g) = _nodes g → destinations_present g →
  _nodes g' = _nodes g ∧ dom (_edges g') = _nodes g' ∧
  destinations_present g' ∧ grows g g'.
Proof.
  intros (Ha & Hb & dests & Hdests & ->)%add_edge_Return Hdom Hdest. simpl.
  split; [done|]. split; [|split; [|split]]; simpl.
  - rewrite dom_insert_L, Hdom.
    assert (input_a edge ∈ _nodes g); [|set_solver].
    rewrite <- Hdom. apply elem_of_dom. by eexists.
  - intros source ds d. unfold has_node; simpl. fold (has_node g d).
    destruct (decide (input_a edge = source)) as [<-|Hne].
    + rewrite lookup_insert_eq. intros [= <-].
      rewrite elem_of_union, elem_of_singleton. intros [->|Hd]; [done|].
      by apply (Hdest (input_a edge) dests).
    + rewrite lookup_insert_ne by done. apply Hdest.
  - done.
  - intros source ds Hs. destruct (decide (input_a edge = source)) as [<-|Hne].
    + rewrite lookup_insert_eq. eexists. split; [done|].
      assert (ds = dests) as -> by congruence. set_solver.
    + rewrite lookup_insert_ne by done. by exists ds.
Qed.

Lemma built_facts g :
  built g → unique_values g ∧ dom (_edges g) = _nodes g ∧ destinations_present g.
Proof.
  induction 1 as [|g node ignore_errors g' _ (Hu & Hd & Hp) Hadd
                  |g edge g' _ (Hu & Hd & Hp) Hadd].
  - split; [apply unique_values_init|]. split; [done|]. intros s d x. simpl.
    by rewrite lookup_empty.
  - split; [by eapply add_node_unique_values|].
    destruct (add_node_invariants _ _ _ _ Hadd Hd Hp) as (? & ? & _). done.
  - destruct (add_edge_invariants _ _ _ Hadd Hd Hp) as (Hn & ? & ? & _).
    split; [|done]. intros n m. rewrite Hn. apply Hu.
Qed.

(** X9.  Every graph obtained from [Graph()] by calls of [add_node] and
    [add_edge] that returned has no two vertices of equal value, has
    exactly its vertices as keys of the edge dictionary, and records
    only destinations whose value is held by a vertex. *)
Theorem built_invariants (g : Graph) :
  built g →
  unique_values g ∧ dom (_edges g) = _nodes g ∧ destinations_present g.
Proof. apply built_facts. Qed.

Lemma built_invariants_witness :
  let g := mkGraph {[mkNode 0 1; mkNode 1 2]}
             {[mkNode 0 1 := {[mkNode 1 2]}; mkNode 1 2 := ∅]} in
  unique_values g ∧ dom (_edges g) = _nodes g ∧ destinations_present g.
Proof.
  apply built_invariants.
  apply (built_add_edge
           (mkGraph {[mkNode 0 1; mkNode 1 2]} {[mkNode 0 1 := ∅; mkNode 1 2 := ∅]})
           (NAND_init (mkNode 0 1) (mkNode 1 2))); [|vm_compute; reflexivity].
  apply (built_add_node (mkGraph {[mkNode 0 1]} {[mkNode 0 1 := ∅]})
           (mkNode 1 2) false); [|vm_compute; reflexivity].
  apply (built_add_node Graph_init (mkNode 0 1) false); [|vm_compute; reflexivity].
  apply built_init.
Defined.

(** X10.  On a graph built through the interface, [add_edge] returns
    exactly when the source object is itself a vertex and the value of
    the destination is held by a vertex; it raises [KeyError] exactly when
    both values are present and the source object is not a vertex. *)
Theorem add_edge_built (g : Graph) (edge : NAND) :
  built g →
  ((∃ g', add_edge g edge = Return g') ↔
     input_a edge ∈ _nodes g ∧ has_node g (input_b edge) = true) ∧
  ((∃ k, add_edge g edge = Raise (KeyError k)) ↔
     has_node g (input_a edge) = true ∧ has_node g (input_b edge) = true ∧
     input_a edge ∉ _nodes g).
Proof.
  intros (_ & Hdom & _)%built_facts.
  assert (input_a edge ∈ _nodes g ↔ is_Some (_edges g !! input_a edge)) as Hkey.
  { by rewrite <- Hdom, elem_of_dom. }
  split; split.
  - intros [g' (Ha & Hb & dests & Hd & _)%add_edge_Return]. split; [|done].
    apply Hkey. by eexists.
  - intros [Hin Hb].
    destruct (add_edge_keyed g edge) as (g' & ? & _); [by apply has_node_stored|done|by apply Hkey|].
    by exists g'.
  - intros [k Hk]. unfold add_edge in Hk.
    destruct (has_node g (input_a edge)); [|done].
    destruct (has_node g (input_b edge)); [|done]. simpl in Hk.
    destruct (_edges g !! input_a edge) as [dests|] eqn:Hd.
    + by case_bool_decide.
    + split; [done|]. split; [done|]. intros Hin. apply Hkey in Hin.
      by destruct Hin.
  - intros (Ha & Hb & Hnot). exists (input_a edge). unfold add_edge.
    rewrite Ha, Hb. simpl.
    destruct (_edges g !! input_a edge) as [dests|] eqn:Hd; [|done].
    destruct Hnot. apply Hkey. by eexists.
Qed.

Lemma add_edge_built_witness :
  let g := mkGraph {[mkNode 0 5]} {[mkNode 0 5 := ∅]} in
  let edge := NAND_init (mkNode 1 5) (mkNode 0 5) in
  ((∃ g', add_edge g edge = Return g') ↔
     input_a edge ∈ _nodes g ∧ has_node g (input_b edge) = true) ∧
  ((∃ k, add_edge g edge = Raise (KeyError k)) ↔
     has_node g (input_a edge) = true ∧ has_node g (input_b edge) = true ∧
     input_a edge ∉ _nodes g).
Proof.
  apply (add_edge_built (mkGraph {[mkNode 0 5]} {[mkNode 0 5 := ∅]})
           (NAND_init (mkNode 1 5) (mkNode 0 5))).
  apply (built_add_node Graph_init (mkNode 0 5) false); [|vm_compute; reflexivity].
  apply built_init.
Defined.

(** X11.  On a graph built through the interface, a call of [add_node] or
    [add_edge] that returns keeps every vertex and every recorded edge:
    the graph only grows. *)
Theorem built_grows (g g' : Graph) :
  built g →
  (∀ node ignore_errors, add_node g node ignore_errors = Return g' → grows g g') ∧
  (∀ edge, add_edge g edge = Return g' → grows g g').
Proof.
  intros (_ & Hdom & Hdest)%built_facts. split.
  - intros node ignore_errors Hadd.
    by destruct (add_node_invariants _ _ _ _ Hadd Hdom Hdest) as (_ & _ & ?).
  - intros edge Hadd.
    by destruct (add_edge_invariants _ _ _ Hadd Hdom Hdest) as (_ & _ & _ & ?).
Qed.

Lemma built_grows_witness :
  let g := mkGraph {[mkNode 0 1; mkNode 1 2]} {[mkNode 0 1 := ∅; mkNode 1 2 := ∅]} in
  let g' := mkGraph {[mkNode 0 1; mkNode 1 2]}
              {[mkNode 0 1 := {[mkNode 1 2]}; mkNode 1 2 := ∅]} in
  grows g g'.
Proof.
  apply (proj2 (built_grows
                  (mkGraph {[mkNode 0 1; mkNode 1 2]} {[mkNode 0 1 := ∅; mkNode 1 2 := ∅]})
                  (mkGraph {[mkNode 0 1; mkNode 1 2]}
                     {[mkNode 0 1 := {[mkNode 1 2]}; mkNode 1 2 := ∅]})
                  ltac:(apply (built_add_node (mkGraph {[mkNode 0 1]} {[mkNode 0 1 := ∅]})
                                 (mkNode 1 2) false);
                        [apply (built_add_node Graph_init (mkNode 0 1) false);
                           [apply built_init|vm_compute; reflexivity]
                        |vm_compute; reflexivity]))
           (NAND_init (mkNode 0 1) (mkNode 1 2))).
  vm_compute. reflexivity.
Defined.

(** ** The graph of a run *)

Lemma bind_Return {A B} (m : result A) (f : A → result B) r :
  (x ← m; f x) = Return r → ∃ a, m = Return a ∧ f a = Return r.
Proof. destruct m as [a| |]; [|done..]. intros Hf. by exists a. Qed.

Lemma reduce_step_built g fresh s m g' fresh' s' :
  reduce_step g fresh s m = Return (g', fresh', s') → built g → built g'.
Proof.
  unfold reduce_step. intros Hstep Hbuilt.
  apply bind_Return in Hstep as (v1 & _ & Hstep).
  apply bind_Return in Hstep as (v2 & _ & Hstep).
  apply bind_Return in Hstep as (n1 & _ & Hstep).
  apply bind_Return in Hstep as (n2 & _ & Hstep).
  apply bind_Return in Hstep as (g1 & Hg1 & Hstep).
  apply bind_Return in Hstep as (g2 & Hg2 & Hstep).
  apply bind_Return in Hstep as (g3 & Hg3 & Hstep).
  apply bind_Return in Hstep as ([out gate] & _ & Hstep).
  apply bind_Return in Hstep as (g4 & Hg4 & Hstep).
  apply bind_Return in Hstep as ([out' gate'] & _ & Hstep).
  apply bind_Return in Hstep as (output_text & _ & Hstep).
  injection Hstep as <- _ _.
  eapply built_add_node; [|exact Hg4].
  eapply built_add_edge; [|exact Hg3].
  eapply built_add_node; [|exact Hg2].
  eapply built_add_node; [|exact Hg1]. done.
Qed.

Lemma reduce_built fuel g fresh s g' s' :
  reduce fuel g fresh s = Return (g', s') → built g → built g'.
Proof.
  revert g fresh s. induction fuel as [|fuel IH]; intros g fresh s; simpl.
  - destruct (search s); [done|]. by intros [= <- _].
  - destruct (search s) as [m|]; [|by intros [= <- _]].
    intros ([[g1 fresh1] s1] & Hstep & Hrest)%bind_Return Hbuilt.
    eapply IH; [exact Hrest|]. by eapply reduce_step_built.
Qed.

(** X12.  The graph [parse_input] returns is one built through the
    interface of [Graph]: it has no two vertices of equal value, its
    vertices are exactly the keys of its edge dictionary, and the value
    of every recorded destination is held by a vertex. *)
Theorem parse_input_graph (input_string : string) (g : Graph) (z : Z) :
  parse_input input_string = Return (g, z) →
  built g ∧ unique_values g ∧ dom (_edges g) = _nodes g ∧ destinations_present g.
Proof.
  unfold parse_input, parse_text.
  intros ([g1 s1] & Hloop & Hrest)%bind_Return.
  apply bind_Return in Hrest as (z1 & _ & Hrest).
  apply bind_Return in Hrest as (printed & _ & [= <- _]).
  assert (built g1) as Hbuilt by (eapply reduce_built; [exact Hloop|apply built_init]).
  split; [done|]. by apply built_facts.
Qed.

Lemma parse_input_graph_witness :
  let g := mkGraph {[mkNode 0 1; mkNode 1 2; mkNode 2 15]}
             {[mkNode 0 1 := {[mkNode 1 2]}; mkNode 1 2 := ∅; mkNode 2 15 := ∅]} in
  built g ∧ unique_values g ∧ dom (_edges g) = _nodes g ∧ destinations_present g.
Proof.
  apply (parse_input_graph "!(1.2).3" _ 3%Z). vm_compute. reflexivity.
Defined.

(** X13.  When the match found in the text has an empty operand, as in
    ["!(.)"], ["!(1.)"] or ["!(12)"], [parse_input] builds nothing and
    raises a [ValueError]: that of [int] on the empty text, unless the
    first operand has more than 4300 digits, which [int] refuses first. *)
Theorem parse_input_empty_group (input_string : string) (m : Match) :
  search (list_ascii_of_string input_string) = Some m →
  group1 m = [] ∨ group2 m = [] →
  parse_input input_string
    = Raise (ValueError (if (int_max_str_digits <? length (group1 m))%nat
                         then DigitLimit else InvalidLiteral [])).
Proof.
  intros Hsearch Hempty. unfold parse_input, parse_text.
  pose proof (search_count_pos _ _ Hsearch) as Hpos.
  destruct (count_bang (list_ascii_of_string input_string)) as [|fuel]; [lia|].
  cbn [reduce]. rewrite Hsearch. unfold reduce_step.
  apply search_inv in Hsearch as (pre & rest & _ & Hhere).
  apply match_here_inv in Hhere as (c & _ & _ & _ & Hd1 & _).
  destruct (Nat.ltb_spec int_max_str_digits (length (group1 m))) as [Hlong|Hshort].
  { by rewrite (py_int_digits_long _ Hd1 Hlong). }
  destruct (group1 m) as [|c1 d1] eqn:Hg1; [done|].
  rewrite (py_int_digits (c1 :: d1)) by done. cbn [mbind outcome_bind].
  destruct Hempty as [Hempty|Hempty]; [done|]. by rewrite Hempty.
Qed.

Lemma parse_input_empty_group_witness :
  parse_input "!(12)" = Raise (ValueError (InvalidLiteral [])).
Proof.
  apply (parse_input_empty_group "!(12)"
           (mkMatch (list_ascii_of_string "!(12)") (list_ascii_of_string "1") [])).
  - vm_compute. reflexivity.
  - right. reflexivity.
Defined.

(** ** The scanner on well-formed expressions *)

Section ScannerOnTerms.
Local Open Scope char_scope.
Local Arguments match_here : simpl never.

Lemma match_here_not_bang c s : c ≠ "!" → match_here (c :: s) = None.
Proof. unfold match_here. by destruct c as [[] [] [] [] [] [] [] []]. Qed.

Lemma search_skip c s : c ≠ "!" → search (c :: s) = search s.
Proof. intros Hc. simpl. by rewrite match_here_not_bang. Qed.

Lemma digit_not_bang c : is_digit c = true → c ≠ "!".
Proof. by destruct c as [[] [] [] [] [] [] [] []]. Qed.

Lemma search_digits d rest :
  forallb is_digit d = true → search (d ++ rest) = search rest.
Proof.
  induction d as [|c d IH]; simpl app; [done|].
  intros [Hc Hd]%andb_true_iff. rewrite search_skip by by apply digit_not_bang.
  by apply IH.
Qed.

(** A run of digits followed by something else: the star takes the whole
    run when the rest of the pattern then succeeds. *)
Lemma greedy_digits_take {R} (k : text → text → option R) acc d s r :
  forallb is_digit d = true →
  match s with c :: _ => is_digit c = false | [] => True end →
  k (acc ++ d) s = Some r →
  greedy_digits k acc (d ++ s) = Some r.
Proof.
  revert acc. induction d as [|c d IH]; intros acc Hd Hs Hk.
  - rewrite app_nil_r in Hk. simpl.
    destruct s as [|c s]; simpl; [done|]. by rewrite Hs.
  - simpl in Hd. apply andb_true_iff in Hd as [Hc Hd]. simpl. rewrite Hc.
    rewrite (IH (acc ++ [c])); [done|done|done|]. by rewrite <- app_assoc.
Qed.

(** The star fails when the rest of the pattern fails after every prefix
    of the run. *)
Lemma greedy_digits_fail {R} (k : text → text → option R) acc d s :
  forallb is_digit d = true →
  match s with c :: _ => is_digit c = false | [] => True end →
  (∀ d' d'', d = d' ++ d'' → k (acc ++ d') (d'' ++ s) = None) →
  greedy_digits k acc (d ++ s) = None.
Proof.
  revert acc. induction d as [|c d IH]; intros acc Hd Hs Hk.
  - specialize (Hk [] [] eq_refl). rewrite app_nil_r in Hk.
    destruct s as [|c s]; simpl in *; [done|]. by rewrite Hs.
  - simpl in Hd. apply andb_true_iff in Hd as [Hc Hd]. simpl. rewrite Hc.
    rewrite (IH (acc ++ [c])); [|done|done|].
    + specialize (Hk [] (c :: d) eq_refl). by rewrite app_nil_r in Hk.
    + intros d' d'' ->. rewrite <- app_assoc. by apply (Hk (c :: d') d'').
Qed.

Lemma group_text_app d1 d2 rest :
  group_text d1 d2 ++ rest = "!" :: "(" :: d1 ++ "." :: d2 ++ ")" :: rest.
Proof.
  unfold group_text. simpl. do 2 f_equal. rewrite <- app_assoc. simpl.
  do 2 f_equal. by rewrite <- app_assoc.
Qed.

(** A group of two runs of digits separated by a dot is matched where it
    stands, with the two runs as operands. *)
Lemma match_here_group d1 d2 rest :
  forallb is_digit d1 = true → forallb is_digit d2 = true →
  match_here (group_text d1 d2 ++ rest) = Some (mkMatch (group_text d1 d2) d1 d2).
Proof.
  intros Hd1 Hd2. rewrite group_text_app. unfold match_here.
  apply greedy_digits_take; [done|done|]. simpl.
  apply greedy_digits_take; [done|done|]. done.
Qed.

Lemma print_app_group a b rest :
  print (Nand a b) ++ rest = "!" :: "(" :: print a ++ "." :: print b ++ ")" :: rest.
Proof.
  simpl. do 2 f_equal. rewrite <- app_assoc. simpl. do 2 f_equal.
  by rewrite <- app_assoc.
Qed.

Lemma print_Nand_head a b : ∃ s, print (Nand a b) = "!" :: "(" :: s.
Proof. by eexists. Qed.

(** A group with a group among its operands is not matched at its own
    exclamation mark. *)
Lemma match_here_nested a b rest :
  well_formed (Nand a b) →
  (∀ d1 d2, ¬ (a = Lit d1 ∧ b = Lit d2)) →
  match_here (print (Nand a b) ++ rest) = None.
Proof.
  intros [Ha Hb] Hnot. rewrite print_app_group. unfold match_here.
  destruct a as [d1|a1 a2].
  - destruct b as [d2|b1 b2]; [by destruct (Hnot d1 d2)|].
    destruct Ha as [_ Hd1]. simpl print at 1.
    destruct (print_Nand_head b1 b2) as [sb ->]. simpl app at 2.
    apply greedy_digits_fail; [done|done|].
    intros d' d'' ->. simpl.
    destruct d'' as [|c d'']; simpl.
    + done.
    + rewrite forallb_app in Hd1. apply andb_true_iff in Hd1 as [_ Hd'']. simpl in Hd''.
      apply andb_true_iff in Hd'' as [Hc Hd''].
      replace (c =? "010") with false by (by destruct c as [[] [] [] [] [] [] [] []]).
      apply greedy_digits_fail; [done|done|].
      intros e' e'' ->. destruct e'' as [|x e'']; simpl; [done|].
      rewrite forallb_app in Hd''. apply andb_true_iff in Hd'' as [_ He'']. simpl in He''.
      apply andb_true_iff in He'' as [Hx _].
      by destruct x as [[] [] [] [] [] [] [] []].
  - destruct (print_Nand_head a1 a2) as [sa ->]. done.
Qed.

(** On the text of a well-formed expression, followed by anything, the
    scanner returns the first group of two literals and looks further
    only when the expression has none. *)
Lemma search_print t rest :
  well_formed t →
  search (print t ++ rest) =
    match redex t with
    | Some (d1, d2) => Some (mkMatch (group_text d1 d2) d1 d2)
    | None => search rest
    end.
Proof.
  revert rest. induction t as [d|a IHa b IHb]; intros rest Hwf.
  - simpl. apply search_digits. by destruct Hwf.
  - assert ((∃ d1 d2, a = Lit d1 ∧ b = Lit d2) ∨
            (∀ d1 d2, ¬ (a = Lit d1 ∧ b = Lit d2))) as [(d1 & d2 & -> & ->)|Hnot].
    { destruct a as [d1|]; [destruct b as [d2|]|]; [left; by exists d1, d2|right..];
        by intros ? ? [? ?]. }
    + destruct Hwf as [[_ Hd1] [_ Hd2]].
      change (print (Nand (Lit d1) (Lit d2))) with (group_text d1 d2).
      change (redex (Nand (Lit d1) (Lit d2))) with (Some (d1, d2)).
      destruct (group_text d1 d2 ++ rest) as [|c s] eqn:Hs.
      { by rewrite group_text_app in Hs. }
      simpl. rewrite <- Hs. by rewrite match_here_group.
    + assert (redex (Nand a b)
              = match redex a with Some r => Some r | None => redex b end) as ->.
      { simpl. destruct a as [d1|]; [|done]. destruct b as [d2|]; [|done].
        by destruct (Hnot d1 d2). }
      pose proof (match_here_nested a b rest Hwf Hnot) as Hnone.
      destruct Hwf as [Ha Hb].
      rewrite print_app_group in *.
      change (search ("!" :: "(" :: print a ++ "." :: print b ++ ")" :: rest))
        with (match match_here ("!" :: "(" :: print a ++ "." :: print b ++ ")" :: rest) with
              | Some m => Some m
              | None => search ("(" :: print a ++ "." :: print b ++ ")" :: rest)
              end).
      rewrite Hnone.
      rewrite search_skip by done. rewrite IHa by done.
      destruct (redex a) as [[d1 d2]|]; [done|].
      rewrite search_skip by done. rewrite IHb by done.
      destruct (redex b) as [[d1 d2]|]; [done|].
      by rewrite search_skip.
Qed.
End ScannerOnTerms.

(** ** Replacement on well-formed expressions *)

Section ReplaceOnTerms.
Local Open Scope char_scope.

Local Arguments replace : simpl never.
Local Arguments group_text : simpl never.

Section Group.
Variables d1 d2 new : text.
Hypothesis digits1 : forallb is_digit d1 = true.
Hypothesis digits2 : forallb is_digit d2 = true.

Lemma group_text_not_nil : group_text d1 d2 ≠ [].
Proof. done. Qed.

Lemma replace_skip c s :
  c ≠ "!" →
  replace (group_text d1 d2) new (c :: s) = c :: replace (group_text d1 d2) new s.
Proof.
  intros Hc. apply replace_miss; [done|]. unfold group_text. cbn [strip_prefix].
  destruct (Ascii.eqb_spec "!" c); [congruence|done].
Qed.

Lemma replace_digits d rest :
  forallb is_digit d = true →
  replace (group_text d1 d2) new (d ++ rest)
    = d ++ replace (group_text d1 d2) new rest.
Proof.
  induction d as [|c d IH]; simpl; [done|].
  intros [Hc Hd]%andb_true_iff.
  rewrite replace_skip by by apply digit_not_bang. by rewrite IH.
Qed.

(** Two runs of digits, each closed by the same character that is no
    digit, are equal when the texts are. *)
Lemma digits_sep d d' c X Y :
  forallb is_digit d = true → forallb is_digit d' = true → is_digit c = false →
  d ++ c :: X = d' ++ c :: Y → d = d' ∧ X = Y.
Proof.
  revert d'. induction d as [|x d IH]; intros [|y d']; simpl.
  - by intros _ _ _ [= ->].
  - intros _ [Hy _]%andb_true_iff Hc [= -> _]. congruence.
  - intros [Hx _]%andb_true_iff _ Hc [= -> _]. congruence.
  - intros [_ Hd]%andb_true_iff [_ Hd']%andb_true_iff Hc [= -> Heq].
    destruct (IH d' Hd Hd' Hc Heq) as [-> ->]. done.
Qed.

Lemma print_sep a d c X Y :
  well_formed a → forallb is_digit d = true → is_digit c = false → c ≠ "!" →
  print a ++ c :: X = d ++ c :: Y → a = Lit d ∧ X = Y.
Proof.
  intros Hwf Hd Hc Hbang. destruct a as [da|a1 a2]; simpl.
  - destruct Hwf as [_ Hda]. intros Heq.
    destruct (digits_sep da d c X Y Hda Hd Hc Heq) as [-> ->]. done.
  - destruct d as [|y d]; simpl.
    + intros [= <-]. done.
    + intros [= <-]. simpl in Hd. done.
Qed.

(** The text of a group is a prefix of the text of another group only
    when the two are the same group. *)
Lemma strip_prefix_group a b rest :
  well_formed (Nand a b) → ¬ (a = Lit d1 ∧ b = Lit d2) →
  strip_prefix (group_text d1 d2) (print (Nand a b) ++ rest) = None.
Proof.
  intros [Ha Hb] Hnot.
  destruct (strip_prefix _ _) as [r|] eqn:Hstrip; [|done].
  apply strip_prefix_Some in Hstrip.
  rewrite print_app_group, group_text_app in Hstrip.
  injection Hstrip as Hstrip.
  apply print_sep in Hstrip as [-> Hstrip]; [|done..].
  apply print_sep in Hstrip as [-> _]; [|done..].
  by destruct Hnot.
Qed.

(** Replacing the text of a group in the text of an expression is
    replacing the group in the expression. *)
Lemma replace_print t rest :
  well_formed t →
  replace (group_text d1 d2) new (print t ++ rest)
    = print (subst d1 d2 new t) ++ replace (group_text d1 d2) new rest.
Proof.
  revert rest. induction t as [d|a IHa b IHb]; intros rest Hwf.
  - simpl. apply replace_digits. by destruct Hwf.
  - simpl subst. case_bool_decide as Hcase.
    + destruct Hcase as [-> ->].
      change (print (Nand (Lit d1) (Lit d2))) with (group_text d1 d2).
      by apply replace_hit.
    + pose proof (strip_prefix_group a b rest Hwf Hcase) as Hstrip.
      destruct Hwf as [Ha Hb].
      rewrite (print_app_group (subst d1 d2 new a)).
      rewrite print_app_group in *.
      rewrite replace_miss by done.
      rewrite replace_skip by done. rewrite IHa by done.
      rewrite replace_skip by done. rewrite IHb by done.
      by rewrite replace_skip.
Qed.

Lemma replace_print_doc ts :
  Forall well_formed ts →
  replace (group_text d1 d2) new (print_doc ts)
    = print_doc (subst d1 d2 new <$> ts).
Proof.
  induction 1 as [|t ts Ht Hts IH]; [by apply replace_nil|].
  destruct ts as [|t' ts].
  - simpl. rewrite <- (app_nil_r (print t)), replace_print by done.
    by rewrite replace_nil, app_nil_r.
  - change (print_doc (t :: t' :: ts)) with (print t ++ "." :: print_doc (t' :: ts)).
    rewrite replace_print by done. rewrite replace_skip by done. by rewrite IH.
Qed.
End Group.

Lemma search_print_doc ts :
  Forall well_formed ts →
  search (print_doc ts) =
    match redex_doc ts with
    | Some (d1, d2) => Some (mkMatch (group_text d1 d2) d1 d2)
    | None => None
    end.
Proof.
  induction 1 as [|t ts Ht Hts IH]; [done|].
  destruct ts as [|t' ts].
  - simpl. rewrite <- (app_nil_r (print t)), search_print by done.
    by destruct (redex t) as [[]|].
  - change (print_doc (t :: t' :: ts)) with (print t ++ "." :: print_doc (t' :: ts)).
    rewrite search_print by done.
    change (redex_doc (t :: t' :: ts))
      with (match redex t with Some r => Some r | None => redex_doc (t' :: ts) end).
    destruct (redex t) as [[]|]; [done|].
    rewrite search_skip by done. apply IH.
Qed.
End ReplaceOnTerms.

(** ** Evaluation of well-formed expressions *)

Lemma redex_digits t d1 d2 :
  well_formed t → redex t = Some (d1, d2) →
  (d1 ≠ [] ∧ forallb is_digit d1 = true) ∧ (d2 ≠ [] ∧ forallb is_digit d2 = true).
Proof.
  induction t as [d|a IHa b IHb]; [done|]. intros [Ha Hb].
  destruct a as [x|a1 a2].
  - destruct b as [y|b1 b2].
    + by intros [= -> ->].
    + simpl. by apply IHb.
  - change (redex (Nand (Nand a1 a2) b))
      with (match redex (Nand a1 a2) with Some r => Some r | None => redex b end).
    destruct (redex (Nand a1 a2)) as [r|].
    + intros [= ->]. by apply IHa.
    + by apply IHb.
Qed.

Lemma redex_None t : redex t = None → ∃ d, t = Lit d.
Proof.
  induction t as [d|a IHa b IHb]; [by exists d|].
  destruct a as [x|a1 a2].
  - destruct b as [y|b1 b2]; [done|]. simpl. intros Hb.
    by destruct (IHb Hb).
  - change (redex (Nand (Nand a1 a2) b))
      with (match redex (Nand a1 a2) with Some r => Some r | None => redex b end).
    destruct (redex (Nand a1 a2)) as [r|]; [done|]. intros _.
    by destruct (IHa eq_refl).
Qed.

Lemma redex_doc_digits ts d1 d2 :
  Forall well_formed ts → redex_doc ts = Some (d1, d2) →
  (d1 ≠ [] ∧ forallb is_digit d1 = true) ∧ (d2 ≠ [] ∧ forallb is_digit d2 = true).
Proof.
  induction 1 as [|t ts Ht Hts IH]; [done|]. simpl.
  destruct (redex t) as [r|] eqn:Hr; [|done].
  intros [= ->]. by apply (redex_digits t).
Qed.

Lemma redex_doc_None ts : redex_doc ts = None → Forall (λ t, ∃ d, t = Lit d) ts.
Proof.
  induction ts as [|t ts IH]; [done|]. simpl.
  destruct (redex t) eqn:Hr; [done|]. intros Hts.
  constructor; [by apply redex_None|by apply IH].
Qed.

Section Subst.
Variables (d1 d2 new : text) (v : Z).
Hypothesis new_digits : new ≠ [] ∧ forallb is_digit new = true.
Hypothesis new_value : digits_value 0 new = v.
Hypothesis gate_value : NAND_value (digits_value 0 d1) (digits_value 0 d2) = Some v.

Lemma eval_subst t : eval (subst d1 d2 new t) = eval t.
Proof.
  induction t as [d|a IHa b IHb]; [done|]. simpl subst.
  case_bool_decide as Hcase.
  - destruct Hcase as [-> ->]. simpl. by rewrite new_value, gate_value.
  - simpl. by rewrite IHa, IHb.
Qed.

Lemma well_formed_subst t : well_formed t → well_formed (subst d1 d2 new t).
Proof.
  induction t as [d|a IHa b IHb]; [done|]. intros [Ha Hb]. simpl subst.
  case_bool_decide; [done|]. simpl. auto.
Qed.

Hypothesis new_length : length new ≤ int_max_str_digits.

Lemma in_range_subst t : in_range t → in_range (subst d1 d2 new t).
Proof.
  induction t as [d|a IHa b IHb]; [done|]. intros (Ha & Hb & w & Hw & Hlimit).
  simpl subst. case_bool_decide; [done|].
  split; [auto|]. split; [auto|]. exists w. split; [|done].
  simpl. rewrite !eval_subst. exact Hw.
Qed.
End Subst.

(** The group the scanner finds in expressions [in_range] has operands
    and an output within the limit of the conversions. *)
Lemma redex_in_range t d1 d2 :
  in_range t → redex t = Some (d1, d2) →
  length d1 ≤ int_max_str_digits ∧ length d2 ≤ int_max_str_digits ∧
  ∃ v, NAND_value (digits_value 0 d1) (digits_value 0 d2) = Some v ∧ within_limit v.
Proof.
  induction t as [d|a IHa b IHb]; [done|]. intros (Ha & Hb & Hv).
  destruct a as [x|a1 a2].
  - destruct b as [y|b1 b2].
    + intros [= -> ->]. done.
    + simpl. by apply IHb.
  - change (redex (Nand (Nand a1 a2) b))
      with (match redex (Nand a1 a2) with Some r => Some r | None => redex b end).
    destruct (redex (Nand a1 a2)) as [r|].
    + intros [= ->]. by apply IHa.
    + by apply IHb.
Qed.

Lemma redex_doc_in_range ts d1 d2 :
  Forall in_range ts → redex_doc ts = Some (d1, d2) →
  length d1 ≤ int_max_str_digits ∧ length d2 ≤ int_max_str_digits ∧
  ∃ v, NAND_value (digits_value 0 d1) (digits_value 0 d2) = Some v ∧ within_limit v.
Proof.
  induction 1 as [|t ts Ht Hts IH]; [done|]. simpl.
  destruct (redex t) as [r|] eqn:Hr; [|done].
  intros [= ->]. by apply (redex_in_range t).
Qed.

(** The value of a well-formed expression [in_range] is within the
    limit, and not negative. *)
Lemma eval_in_range t v :
  well_formed t → in_range t → eval t = Some v → within_limit v ∧ (0 ≤ v)%Z.
Proof.
  destruct t as [d|a b].
  - intros [_ Hd] Hlen [= <-].
    pose proof (digits_value_bound d 0 Hd ltac:(done)) as [Hlower Hupper].
    split; [|lia]. unfold within_limit.
    assert (10 ^ Z.of_nat (length d) ≤ 10 ^ Z.of_nat int_max_str_digits)%Z
      by (apply Z.pow_le_mono_r; simpl in Hlen; lia).
    lia.
  - intros _ (_ & _ & w & Hw & Hlimit) Hv. rewrite Hw in Hv. injection Hv as <-.
    split; [done|]. simpl in Hw.
    destruct (eval a) as [x|]; [|done]. destruct (eval b) as [y|]; [|done].
    apply NAND_value_pos in Hw. lia.
Qed.

(** A turn from a [keyed] graph, on operands that are integer literals
    and with an output of the gate within the limit of [str]: the text of
    the match is replaced by the decimal text of the output. *)
Lemma reduce_step_value g fresh s m v1 v2 v :
  keyed g →
  py_int (group1 m) = Return v1 → py_int (group2 m) = Return v2 →
  NAND_value v1 v2 = Some v → within_limit v →
  ∃ g', reduce_step g fresh s m
          = Return (g', fresh + 3, replace (group0 m) (decimal v) s) ∧ keyed g'.
Proof.
  intros Hkeyed H1 H2 Hv Hlimit. unfold reduce_step. rewrite H1, H2.
  cbn [mbind outcome_bind value].
  destruct (resolve_node g v1 (mkNode fresh v1) eq_refl) as (n1 & -> & Hv1 & Hn1).
  destruct (resolve_node g v2 (mkNode (fresh + 1) v2) eq_refl) as (n2 & -> & Hv2 & Hn2).
  cbn [mbind outcome_bind].
  destruct (add_node_ignore g n1) as (g1 & -> & Hhas1 & Hmono1 & _ & Hnew1 & Hsub1 & Hkey1).
  cbn [mbind outcome_bind].
  destruct (add_node_ignore g1 n2) as (g2 & -> & Hhas2 & Hmono2 & _ & _ & Hsub2 & Hkey2).
  cbn [mbind outcome_bind].
  assert (n1 ∈ _nodes g2) as Hin1.
  { apply Hsub2. destruct Hn1 as [Hin|[_ Hfalse]]; [by apply Hsub1|by apply Hnew1]. }
  destruct (add_edge_keyed g2 (NAND_init n1 n2)) as (g3 & -> & _ & Hkey3 & _);
    [by apply Hmono2|done|exact (Hkey2 (Hkey1 Hkeyed) n1 Hin1)|].
  cbn [mbind outcome_bind].
  destruct (NAND_output_fresh (fresh + 2) n1 n2) as (out & -> & _ & Hout).
  cbn [mbind outcome_bind].
  destruct (add_node_ignore g3 out) as (g4 & -> & _ & _ & _ & _ & _ & Hkey4).
  cbn [mbind outcome_bind]. rewrite NAND_output_cached. cbn [mbind outcome_bind].
  exists g4. split; [|auto].
  rewrite Hv1, Hv2, Hv in Hout. injection Hout as <-.
  by rewrite (py_str_Return _ Hlimit).
Qed.

(** Literals stand for themselves. *)
Lemma literals_stand ts :
  Forall well_formed ts → Forall in_range ts → Forall (λ t, ∃ d, t = Lit d) ts →
  Forall2 (λ t t', (∃ d, t' = Lit d) ∧ well_formed t' ∧ in_range t' ∧ eval t' = eval t)
    ts ts.
Proof.
  induction 1 as [|t ts Ht Hts IH]; [constructor|].
  intros Hrange Hlit. inversion Hrange; subst. inversion Hlit; subst.
  constructor; [done|by apply IH].
Qed.

(** The loop on the text of well-formed operands [in_range]: it ends
    with the text of as many literals, each worth what the operand it
    stands for is worth. *)
Lemma reduce_doc fuel ts g fresh :
  Forall well_formed ts → Forall in_range ts → keyed g →
  count_bang (print_doc ts) ≤ fuel →
  ∃ g' ts',
    reduce fuel g fresh (print_doc ts) = Return (g', print_doc ts') ∧
    Forall2 (λ t t', (∃ d, t' = Lit d) ∧ well_formed t' ∧ in_range t' ∧ eval t' = eval t)
      ts ts'.
Proof.
  revert ts g fresh.
  induction fuel as [|fuel IH]; intros ts g fresh Hwf Hrange Hkeyed Hfuel.
  - pose proof (search_print_doc ts Hwf) as Hsearch.
    destruct (redex_doc ts) as [[d1 d2]|] eqn:Hredex.
    { apply search_count_pos in Hsearch. lia. }
    simpl. rewrite Hsearch. exists g, ts. split; [done|].
    apply redex_doc_None in Hredex. by apply literals_stand.
  - pose proof (search_print_doc ts Hwf) as Hsearch.
    destruct (redex_doc ts) as [[d1 d2]|] eqn:Hredex; cycle 1.
    { simpl. rewrite Hsearch. exists g, ts. split; [done|].
      apply redex_doc_None in Hredex. by apply literals_stand. }
    destruct (redex_doc_digits ts d1 d2 Hwf Hredex) as [[Hne1 Hd1] [Hne2 Hd2]].
    destruct (redex_doc_in_range ts d1 d2 Hrange Hredex)
      as (Hlen1 & Hlen2 & v & Hv & Hlimit).
    pose proof (NAND_value_pos _ _ _ Hv) as Hpos.
    destruct v as [|p|p]; [lia| |lia].
    destruct (decimal_digits p) as (Hnew & Hnewd & Hnewv).
    assert (length (decimal (Z.pos p)) ≤ int_max_str_digits) as Hnewlen
      by (by apply (decimal_abs_length (Z.pos p))).
    destruct (reduce_step_value g fresh (print_doc ts) (mkMatch (group_text d1 d2) d1 d2)
                (digits_value 0 d1) (digits_value 0 d2) (Z.pos p) Hkeyed)
      as (g1 & Hstep & Hkeyed1); [by apply py_int_digits..|done|done|].
    pose proof (reduce_step_decreases _ _ _ _ _ _ _ Hsearch Hstep) as Hless.
    cbn [group0] in Hstep, Hless. rewrite replace_print_doc in Hstep, Hless by done.
    cbn [reduce]. rewrite Hsearch, Hstep. cbn [mbind outcome_bind].
    destruct (IH (subst d1 d2 (decimal (Z.pos p)) <$> ts) g1 (fresh + 3))
      as (g' & ts' & Hloop & Hall); [| |done|lia|].
    { apply Forall_fmap. eapply Forall_impl; [exact Hwf|].
      intros t Ht. by apply well_formed_subst. }
    { apply Forall_fmap. eapply Forall_impl; [exact Hrange|].
      intros t Ht. by apply (in_range_subst d1 d2 _ (Z.pos p)). }
    exists g', ts'. split; [done|].
    apply Forall2_fmap_l in Hall. eapply Forall2_impl; [exact Hall|].
    intros t t' (Hlit & Hwf' & Hrange' & Heval). repeat (split; [done|]).
    rewrite Heval. by apply (eval_subst d1 d2 _ (Z.pos p)).
Qed.

Section SplitFacts.
Local Open Scope char_scope.

Lemma split_digits d :
  forallb is_digit d = true → split "." d = [d].
Proof.
  induction d as [|c d IH]; [done|]. simpl.
  intros [Hc Hd]%andb_true_iff. rewrite (IH Hd).
  by destruct c as [[] [] [] [] [] [] [] []].
Qed.

Lemma split_digits_dot d s :
  forallb is_digit d = true → split "." (d ++ "." :: s) = d :: split "." s.
Proof.
  induction d as [|c d IH]; [done|]. simpl.
  intros [Hc Hd]%andb_true_iff. rewrite (IH Hd).
  by destruct c as [[] [] [] [] [] [] [] []].
Qed.
End SplitFacts.

Lemma finalize_literals ds :
  ds ≠ [] →
  Forall (λ d, d ≠ [] ∧ forallb is_digit d = true ∧ length d ≤ int_max_str_digits) ds →
  map_int (split "." (print_doc (Lit <$> ds))) = Return (digits_value 0 <$> ds).
Proof.
  intros Hne Hds. induction Hds as [|d ds (Hd1 & Hd2 & Hd3) Hds IH]; [done|].
  destruct ds as [|d' ds].
  - simpl. rewrite split_digits by done. simpl. by rewrite py_int_digits.
  - change (print_doc (Lit <$> d :: d' :: ds))
      with (d ++ "."%char :: print_doc (Lit <$> d' :: ds)).
    rewrite split_digits_dot by done. cbn [map_int].
    rewrite py_int_digits by done. cbn [mbind outcome_bind].
    by rewrite IH.
Qed.

(** [parse_input] on the text of well-formed operands [in_range],
    separated by dots: the loop reduces every group, and what is left for
    the final combination is the list of the values of the operands. *)
Lemma parse_text_doc ts :
  ts ≠ [] → Forall well_formed ts → Forall in_range ts →
  ∃ g vs,
    Forall2 (λ t v, eval t = Some v) ts vs ∧
    parse_text (print_doc ts) =
      match vs with
      | _ :: _ :: _ :: _ => raise_InvalidInputError "Input is not in the expected format"
      | [a; b] => Return (g, Z.land a b)
      | [a] => Return (g, a)
      | [] => Raise IndexError
      end.
Proof.
  intros Hne Hwf Hrange. unfold parse_text.
  destruct (reduce_doc (count_bang (print_doc ts)) ts Graph_init 0
              Hwf Hrange keyed_init (le_n _))
    as (g & ts' & -> & Hall).
  cbn [mbind outcome_bind].
  assert (∃ ds, ts' = Lit <$> ds ∧
                Forall (λ d, d ≠ [] ∧ forallb is_digit d = true ∧
                             length d ≤ int_max_str_digits) ds ∧
                Forall2 (λ t v, eval t = Some v) ts (digits_value 0 <$> ds))
    as (ds & -> & Hds & Hvs).
  { clear -Hall.
    induction Hall as [|t t' ts ts' ([d ->] & [Hwf1 Hwf2] & Hrange' & Heval) _ IH].
    - by exists [].
    - destruct IH as (ds & -> & Hds & Hvs). exists (d :: ds).
      split; [done|]. split; constructor; done. }
  exists g, (digits_value 0 <$> ds). split; [done|].
  assert (ds ≠ []) as Hds_ne.
  { intros ->. apply Forall2_length in Hvs. by destruct ts. }
  assert (Forall (λ v, within_limit v ∧ (0 ≤ v)%Z) (digits_value 0 <$> ds)) as Hlimits.
  { apply Forall_fmap. eapply Forall_impl; [exact Hds|].
    intros d (Hd1 & Hd2 & Hd3). by apply (eval_in_range (Lit d)). }
  unfold finalize. rewrite finalize_literals by done. cbn [mbind outcome_bind].
  destruct (digits_value 0 <$> ds) as [|a [|b [|c vs]]]; [done| | |done].
  - inversion Hlimits as [|? ? [Ha _] _]; subst.
    cbn [mbind outcome_bind]. unfold print_output. by rewrite (py_str_Return a Ha).
  - inversion Hlimits as [|? ? [Ha Ha'] Hrest]; subst.
    inversion Hrest as [|? ? [Hb _] _]; subst.
    cbn [mbind outcome_bind]. unfold print_output. rewrite py_str_Return; [done|].
    apply land_within_limit; auto.
Qed.

Lemma parse_input_text s : parse_input (string_of_list_ascii s) = parse_text s.
Proof. unfold parse_input. by rewrite list_ascii_of_string_of_list_ascii. Qed.

(** X14.  On the text of a well-formed expression, the scanner returns
    the first group, in the order of the text, whose two operands are
    literals, with these literals as its captured operands; it finds
    nothing exactly when the expression is a literal. *)
Theorem search_innermost (t : term) :
  well_formed t →
  search (print t) =
    match redex t with
    | Some (d1, d2) => Some (mkMatch (group_text d1 d2) d1 d2)
    | None => None
    end ∧
  (redex t = None ↔ ∃ d, t = Lit d).
Proof.
  intros Hwf. split.
  - rewrite <- (app_nil_r (print t)), search_print by done.
    by destruct (redex t) as [[]|].
  - split; [apply redex_None|]. by intros [d ->].
Qed.

Lemma search_innermost_witness :
  let t := Nand (Nand (Lit (list_ascii_of_string "1")) (Lit (list_ascii_of_string "2")))
             (Nand (Lit (list_ascii_of_string "3")) (Lit (list_ascii_of_string "4"))) in
  search (print t) =
    match redex t with
    | Some (d1, d2) => Some (mkMatch (group_text d1 d2) d1 d2)
    | None => None
    end ∧
  (redex t = None ↔ ∃ d, t = Lit d).
Proof.
  apply (search_innermost
           (Nand (Nand (Lit (list_ascii_of_string "1")) (Lit (list_ascii_of_string "2")))
              (Nand (Lit (list_ascii_of_string "3")) (Lit (list_ascii_of_string "4"))))).
  simpl. repeat split; done.
Defined.

(** X15.  [parse_input] on the text of one well-formed expression, in
    which no literal and no output of a group has more than 4300 digits,
    returns its value: literals are read in decimal, and every group,
    however deeply nested, is worth the output of the gate on the values
    of its two operands. *)
Theorem parse_input_expression (t : term) :
  well_formed t → in_range t →
  ∃ g v, parse_input (string_of_list_ascii (print t)) = Return (g, v) ∧
         eval t = Some v.
Proof.
  intros Hwf Hrange. rewrite parse_input_text.
  destruct (parse_text_doc [t]) as (g & vs & Hvs & Hparse);
    [done|by constructor|by constructor|].
  inversion Hvs as [|? v ? vs' Hv Hnil]; subst. inversion Hnil; subst.
  exists g, v. done.
Qed.

Lemma parse_input_expression_witness :
  let t := Nand (Nand (Lit (list_ascii_of_string "1")) (Lit (list_ascii_of_string "2")))
             (Lit (list_ascii_of_string "3")) in
  ∃ g v, parse_input (string_of_list_ascii (print t)) = Return (g, v) ∧
         eval t = Some v.
Proof.
  apply (parse_input_expression
           (Nand (Nand (Lit (list_ascii_of_string "1")) (Lit (list_ascii_of_string "2")))
              (Lit (list_ascii_of_string "3")))).
  - simpl. repeat split; done.
  - in_range_literals.
Defined.

(** X16.  [parse_input] on two well-formed expressions separated by a
    dot, in which no literal and no output of a group has more than 4300
    digits, returns the bitwise AND of their values. *)
Theorem parse_input_two_expressions (t1 t2 : term) :
  well_formed t1 → well_formed t2 → in_range t1 → in_range t2 →
  ∃ g v1 v2,
    parse_input (string_of_list_ascii (print t1 ++ "."%char :: print t2))
      = Return (g, Z.land v1 v2) ∧
    eval t1 = Some v1 ∧ eval t2 = Some v2.
Proof.
  intros Hwf1 Hwf2 Hrange1 Hrange2. rewrite parse_input_text.
  destruct (parse_text_doc [t1; t2]) as (g & vs & Hvs & Hparse);
    [done|by repeat constructor|by repeat constructor|].
  inversion Hvs as [|? v1 ? vs1 Hv1 Hrest]; subst.
  inversion Hrest as [|? v2 ? vs2 Hv2 Hnil]; subst. inversion Hnil; subst.
  exists g, v1, v2. done.
Qed.

Lemma parse_input_two_expressions_witness :
  let t1 := Nand (Lit (list_ascii_of_string "10")) (Lit (list_ascii_of_string "20")) in
  let t2 := Nand (Lit (list_ascii_of_string "30")) (Lit (list_ascii_of_string "40")) in
  ∃ g v1 v2,
    parse_input (string_of_list_ascii (print t1 ++ "."%char :: print t2))
      = Return (g, Z.land v1 v2) ∧
    eval t1 = Some v1 ∧ eval t2 = Some v2.
Proof.
  apply (parse_input_two_expressions
           (Nand (Lit (list_ascii_of_string "10")) (Lit (list_ascii_of_string "20")))
           (Nand (Lit (list_ascii_of_string "30")) (Lit (list_ascii_of_string "40")))).
  - simpl. repeat split; done.
  - simpl. repeat split; done.
  - in_range_literals.
  - in_range_literals.
Defined.

(** X17.  [parse_input] on three or more well-formed expressions
    separated by dots, in which no literal and no output of a group has
    more than 4300 digits, reduces every group and then reaches the
    statement that raises the invalid-input-format error. *)
Theorem parse_input_many_expressions (ts : list term) :
  Forall well_formed ts → Forall in_range ts → 2 < length ts →
  parse_input (string_of_list_ascii (print_doc ts))
    = raise_InvalidInputError "Input is not in the expected format".
Proof.
  intros Hwf Hrange Hlen. rewrite parse_input_text.
  destruct (parse_text_doc ts) as (g & vs & Hvs & ->);
    [destruct ts; [simpl in Hlen; lia|done]|done|done|].
  apply Forall2_length in Hvs.
  destruct vs as [|a [|b [|c vs]]]; simpl in Hvs; try lia. done.
Qed.

Lemma parse_input_many_expressions_witness :
  parse_input (string_of_list_ascii
                 (print_doc [Nand (Lit (list_ascii_of_string "1")) (Lit (list_ascii_of_string "2"));
                             Lit (list_ascii_of_string "3");
                             Lit (list_ascii_of_string "4")]))
    = raise_InvalidInputError "Input is not in the expected format".
Proof.
  apply parse_input_many_expressions.
  - repeat constructor; done.
  - repeat constructor; in_range_literals.
  - simpl. lia.
Defined.

(** ** The size of the graph of a run *)

Lemma add_node_size g node ignore_errors g' :
  add_node g node ignore_errors = Return g' →
  size (_nodes g') ≤ S (size (_nodes g)).
Proof.
  intros [[_ ->]|[_ ->]]%add_node_Return; [lia|]. simpl.
  rewrite size_union_alt, size_singleton.
  pose proof (subseteq_size (_nodes g ∖ {[node]}) (_nodes g)) as Hle.
  assert (_nodes g ∖ {[node]} ⊆ _nodes g) as Hsub by apply subseteq_difference_l, reflexivity.
  specialize (Hle Hsub). lia.
Qed.

Lemma reduce_step_size g fresh s m g' fresh' s' :
  reduce_step g fresh s m = Return (g', fresh', s') →
  size (_nodes g') ≤ size (_nodes g) + 3.
Proof.
  unfold reduce_step. intros Hstep.
  apply bind_Return in Hstep as (v1 & _ & Hstep).
  apply bind_Return in Hstep as (v2 & _ & Hstep).
  apply bind_Return in Hstep as (n1 & _ & Hstep).
  apply bind_Return in Hstep as (n2 & _ & Hstep).
  apply bind_Return in Hstep as (g1 & Hg1%add_node_size & Hstep).
  apply bind_Return in Hstep as (g2 & Hg2%add_node_size & Hstep).
  apply bind_Return in Hstep as (g3 & Hg3 & Hstep).
  apply bind_Return in Hstep as ([out gate] & _ & Hstep).
  apply bind_Return in Hstep as (g4 & Hg4%add_node_size & Hstep).
  apply bind_Return in Hstep as ([out' gate'] & _ & Hstep).
  apply bind_Return in Hstep as (output_text & _ & Hstep).
  injection Hstep as <- _ _.
  apply add_edge_Return in Hg3 as (_ & _ & dests & _ & ->). simpl in Hg4. lia.
Qed.

Lemma reduce_size fuel g fresh s g' s' :
  reduce fuel g fresh s = Return (g', s') →
  size (_nodes g') + 3 * count_bang s' ≤ size (_nodes g) + 3 * count_bang s.
Proof.
  revert g fresh s. induction fuel as [|fuel IH]; intros g fresh s; simpl.
  - destruct (search s); [done|]. by intros [= <- <-].
  - destruct (search s) as [m|] eqn:Hsearch; [|by intros [= <- <-]].
    intros ([[g1 fresh1] s1] & Hstep & Hrest)%bind_Return.
    pose proof (reduce_step_size _ _ _ _ _ _ _ Hstep).
    pose proof (reduce_step_decreases _ _ _ _ _ _ _ Hsearch Hstep).
    specialize (IH _ _ _ Hrest). lia.
Qed.

(** X18.  The graph [parse_input] returns has at most three vertices for
    each ['!'] of the input: a turn of the loop adds at most the two
    operands and the output, and there are no more turns than ['!']. *)
Theorem parse_input_vertex_bound (input_string : string) (g : Graph) (z : Z) :
  parse_input input_string = Return (g, z) →
  size (_nodes g) ≤ 3 * count_bang (list_ascii_of_string input_string).
Proof.
  unfold parse_input, parse_text.
  intros ([g1 s1] & Hloop%reduce_size & Hrest)%bind_Return.
  apply bind_Return in Hrest as (z1 & _ & Hrest).
  apply bind_Return in Hrest as (printed & _ & [= <- _]).
  change (size (_nodes Graph_init)) with (size (∅ : gset Node)) in Hloop.
  rewrite size_empty in Hloop. lia.
Qed.

Lemma parse_input_vertex_bound_witness :
  size (_nodes (mkGraph {[mkNode 0 1; mkNode 1 2; mkNode 2 15]}
                  {[mkNode 0 1 := {[mkNode 1 2]}; mkNode 1 2 := ∅; mkNode 2 15 := ∅]}))
    ≤ 3 * count_bang (list_ascii_of_string "!(1.2).3").
Proof.
  apply (parse_input_vertex_bound "!(1.2).3" _ 3%Z). vm_compute. reflexivity.
Defined.

(** ** What the graph of a run records *)

Lemma vertex_of_value_has_node g n : vertex_of_value g (value n) ↔ has_node g n = true.
Proof. by rewrite has_node_true. Qed.

(** On a graph whose keys are its vertices, [add_node] adds the value of
    the node to the values held and changes no edge. *)
Lemma add_node_values g node ignore_errors g' :
  dom (_edges g) = _nodes g →
  add_node g node ignore_errors = Return g' →
  (∀ v, vertex_of_value g' v ↔ vertex_of_value g v ∨ v = value node) ∧
  (∀ x y, edge_of_values g' x y ↔ edge_of_values g x y).
Proof.
  intros Hdom [[Hhas ->]|[Hhas ->]]%add_node_Return.
  - split; [|done]. intros v. split; [by left|]. intros [?| ->]; [done|].
    by apply vertex_of_value_has_node.
  - split.
    + intros v. unfold vertex_of_value; simpl. split.
      * intros (n & [->%elem_of_singleton|Hn]%elem_of_union & Hv); [by right|].
        left. by exists n.
      * intros [(n & Hn & Hv)| ->].
        -- exists n. split; [|done]. apply elem_of_union. by right.
        -- exists node. split; [|done]. apply elem_of_union. left.
           by apply elem_of_singleton.
    + assert (_edges g !! node = None) as Hnone.
      { apply not_elem_of_dom. rewrite Hdom. intros Hin%has_node_stored. congruence. }
      intros x y. unfold edge_of_values; simpl. split.
      * intros (n1 & n2 & dests & Hl & Hin & Hx & Hy).
        destruct (decide (node = n1)) as [->|Hne].
        -- rewrite lookup_insert_eq in Hl. injection Hl as <-.
           by apply not_elem_of_empty in Hin.
        -- rewrite lookup_insert_ne in Hl by done. by exists n1, n2, dests.
      * intros (n1 & n2 & dests & Hl & Hin & Hx & Hy). exists n1, n2, dests.
        split; [|done]. rewrite lookup_insert_ne; [done|]. intros ->. congruence.
Qed.

(** [add_edge] adds one edge, between the values of its two inputs, and
    no vertex. *)
Lemma add_edge_values g edge g' :
  add_edge g edge = Return g' →
  _nodes g' = _nodes g ∧
  (∀ x y, edge_of_values g' x y ↔
          edge_of_values g x y ∨
          (x = value (input_a edge) ∧ y = value (input_b edge))).
Proof.
  intros (_ & _ & dests & Hdests & ->)%add_edge_Return. simpl. split; [done|].
  intros x y. unfold edge_of_values; simpl. split.
  - intros (n1 & n2 & ds & Hl & Hin & Hx & Hy).
    destruct (decide (input_a edge = n1)) as [<-|Hne].
    + rewrite lookup_insert_eq in Hl. injection Hl as <-.
      apply elem_of_union in Hin as [->%elem_of_singleton|Hin]; [by right|].
      left. by exists (input_a edge), n2, dests.
    + rewrite lookup_insert_ne in Hl by done. left. by exists n1, n2, ds.
  - intros [(n1 & n2 & ds & Hl & Hin & Hx & Hy)|[-> ->]].
    + destruct (decide (input_a edge = n1)) as [<-|Hne].
      * exists (input_a edge), n2, ({[input_b edge]} ∪ dests).
        rewrite lookup_insert_eq. split; [done|]. split; [|done].
        apply elem_of_union. right. congruence.
      * exists n1, n2, ds. by rewrite lookup_insert_ne.
    + exists (input_a edge), (input_b edge), ({[input_b edge]} ∪ dests).
      rewrite lookup_insert_eq. split; [done|]. split; [|done].
      apply elem_of_union. left. by apply elem_of_singleton.
Qed.

(** What one turn records, from a graph built through the interface: the
    values of the two operands and of the output as vertices, and the
    edge between the values of the operands. *)
Lemma reduce_step_records g fresh s m g' fresh' s' :
  built g →
  reduce_step g fresh s m = Return (g', fresh', s') →
  ∃ v1 v2 o,
    py_int (group1 m) = Return v1 ∧ py_int (group2 m) = Return v2 ∧
    NAND_value v1 v2 = Some o ∧
    (∀ v, vertex_of_value g' v ↔ vertex_of_value g v ∨ v = v1 ∨ v = v2 ∨ v = o) ∧
    (∀ x y, edge_of_values g' x y ↔ edge_of_values g x y ∨ (x = v1 ∧ y = v2)).
Proof.
  unfold reduce_step. intros Hbuilt Hstep.
  apply bind_Return in Hstep as (v1 & Hv1 & Hstep).
  apply bind_Return in Hstep as (v2 & Hv2 & Hstep).
  apply bind_Return in Hstep as (n1 & Hn1 & Hstep).
  apply bind_Return in Hstep as (n2 & Hn2 & Hstep).
  apply bind_Return in Hstep as (g1 & Hg1 & Hstep).
  apply bind_Return in Hstep as (g2 & Hg2 & Hstep).
  apply bind_Return in Hstep as (g3 & Hg3 & Hstep).
  apply bind_Return in Hstep as ([out gate] & Hout & Hstep).
  apply bind_Return in Hstep as (g4 & Hg4 & Hstep).
  apply bind_Return in Hstep as ([out' gate'] & _ & Hstep).
  apply bind_Return in Hstep as (output_text & _ & Hstep).
  injection Hstep as <- _ _.
  cbn [value] in Hn1, Hn2.
  destruct (resolve_node g v1 (mkNode fresh v1) eq_refl) as (n1' & Hn1' & Hval1 & _).
  destruct (resolve_node g v2 (mkNode (fresh + 1) v2) eq_refl) as (n2' & Hn2' & Hval2 & _).
  assert (n1' = n1) as -> by congruence. assert (n2' = n2) as -> by congruence.
  destruct (NAND_output_fresh (fresh + 2) n1 n2) as (out0 & Hout0 & _ & Hgate).
  assert (out0 = out) as -> by congruence.
  rewrite Hval1, Hval2 in Hgate.
  pose proof (built_add_node _ _ _ _ Hbuilt Hg1) as Hb1.
  pose proof (built_add_node _ _ _ _ Hb1 Hg2) as Hb2.
  pose proof (built_add_edge _ _ _ Hb2 Hg3) as Hb3.
  apply built_facts in Hbuilt as (_ & Hd & _). apply built_facts in Hb1 as (_ & Hd1 & _).
  apply built_facts in Hb3 as (_ & Hd3 & _).
  destruct (add_node_values _ _ _ _ Hd Hg1) as [Hv_1 He_1].
  destruct (add_node_values _ _ _ _ Hd1 Hg2) as [Hv_2 He_2].
  destruct (add_edge_values _ _ _ Hg3) as [Hn_3 He_3].
  destruct (add_node_values _ _ _ _ Hd3 Hg4) as [Hv_4 He_4].
  cbn [NAND_init input_a input_b] in He_3.
  exists v1, v2, (value out). split; [done|]. split; [done|]. split; [done|]. split.
  - intros v. rewrite Hv_4. unfold vertex_of_value at 1. rewrite Hn_3.
    fold (vertex_of_value g2 v). rewrite Hv_2, Hv_1, Hval1, Hval2. tauto.
  - intros x y. rewrite He_4, He_3, He_2, He_1, Hval1, Hval2. tauto.
Qed.

Section GatesSubst.
Variables (d1 d2 new : text) (v : Z).
Hypothesis new_value : digits_value 0 new = v.
Hypothesis gate_value : NAND_value (digits_value 0 d1) (digits_value 0 d2) = Some v.

Lemma gates_subst_old t p :
  p ∈ gates t →
  p = (Some (digits_value 0 d1), Some (digits_value 0 d2)) ∨
  p ∈ gates (subst d1 d2 new t).
Proof.
  induction t as [d|a IHa b IHb]; [by right|].
  simpl subst. case_bool_decide as Hcase.
  - destruct Hcase as [-> ->]. simpl. rewrite list_elem_of_singleton. by left.
  - cbn [gates]. rewrite (eval_subst d1 d2 new v new_value gate_value a).
    rewrite (eval_subst d1 d2 new v new_value gate_value b).
    rewrite !elem_of_cons, !elem_of_app. tauto.
Qed.

Lemma gates_subst_new t p : p ∈ gates (subst d1 d2 new t) → p ∈ gates t.
Proof.
  induction t as [d|a IHa b IHb]; [done|].
  simpl subst. case_bool_decide as Hcase.
  - simpl. by intros ?%elem_of_nil.
  - cbn [gates]. rewrite (eval_subst d1 d2 new v new_value gate_value a).
    rewrite (eval_subst d1 d2 new v new_value gate_value b).
    rewrite !elem_of_cons, !elem_of_app. tauto.
Qed.

Lemma gates_doc_cons t ts p : p ∈ gates_doc (t :: ts) ↔ p ∈ gates t ∨ p ∈ gates_doc ts.
Proof. unfold gates_doc. simpl. apply elem_of_app. Qed.

Lemma gates_doc_subst_old ts p :
  p ∈ gates_doc ts →
  p = (Some (digits_value 0 d1), Some (digits_value 0 d2)) ∨
  p ∈ gates_doc (subst d1 d2 new <$> ts).
Proof.
  induction ts as [|t ts IH]; [by intros ?%elem_of_nil|].
  rewrite fmap_cons, !gates_doc_cons.
  intros [Ht%gates_subst_old|Hts%IH]; tauto.
Qed.

Lemma gates_doc_subst_new ts p :
  p ∈ gates_doc (subst d1 d2 new <$> ts) → p ∈ gates_doc ts.
Proof.
  induction ts as [|t ts IH]; [done|].
  rewrite fmap_cons, !gates_doc_cons.
  intros [Ht%gates_subst_new|Hts%IH]; tauto.
Qed.
End GatesSubst.

Lemma redex_gates t d1 d2 :
  redex t = Some (d1, d2) →
  (Some (digits_value 0 d1), Some (digits_value 0 d2)) ∈ gates t.
Proof.
  induction t as [d|a IHa b IHb]; [done|].
  cbn [gates]. rewrite elem_of_cons, elem_of_app.
  destruct a as [x|a1 a2].
  - destruct b as [y|b1 b2].
    + intros [= -> ->]. by left.
    + simpl redex. intros Hb. right. right. by apply IHb.
  - change (redex (Nand (Nand a1 a2) b))
      with (match redex (Nand a1 a2) with Some r => Some r | None => redex b end).
    destruct (redex (Nand a1 a2)) as [r|].
    + intros [= ->]. right. left. by apply IHa.
    + intros Hb. right. right. by apply IHb.
Qed.

Lemma redex_doc_gates ts d1 d2 :
  redex_doc ts = Some (d1, d2) →
  (Some (digits_value 0 d1), Some (digits_value 0 d2)) ∈ gates_doc ts.
Proof.
  induction ts as [|t ts IH]; [done|]. simpl redex_doc. rewrite gates_doc_cons.
  destruct (redex t) as [r|] eqn:Hr.
  - intros [= ->]. left. by apply redex_gates.
  - intros Hts. right. by apply IH.
Qed.

Lemma gates_doc_literals ts : Forall (λ t, ∃ d, t = Lit d) ts → gates_doc ts = [].
Proof. induction 1 as [|t ts [d ->] _ IH]; [done|]. unfold gates_doc in *. simpl. done. Qed.

(** What the loop records on the text of well-formed operands, from a
    graph built through the interface. *)
Lemma reduce_doc_records fuel ts g fresh g' s' :
  Forall well_formed ts → built g → count_bang (print_doc ts) ≤ fuel →
  reduce fuel g fresh (print_doc ts) = Return (g', s') →
  (∀ v, vertex_of_value g' v ↔
        vertex_of_value g v ∨
        ∃ x y o, (Some x, Some y) ∈ gates_doc ts ∧ NAND_value x y = Some o ∧
                 (v = x ∨ v = y ∨ v = o)) ∧
  (∀ x y, edge_of_values g' x y ↔
          edge_of_values g x y ∨ (Some x, Some y) ∈ gates_doc ts).
Proof.
  revert ts g fresh. induction fuel as [|fuel IH]; intros ts g fresh Hwf Hbuilt Hfuel.
  - pose proof (search_print_doc ts Hwf) as Hsearch.
    destruct (redex_doc ts) as [[d1 d2]|] eqn:Hredex.
    { apply search_count_pos in Hsearch. lia. }
    simpl. rewrite Hsearch. intros [= <- _].
    rewrite (gates_doc_literals ts) by by apply redex_doc_None.
    split.
    + intros v. split; [by left|]. intros [?|(? & ? & ? & []%elem_of_nil & _)]. done.
    + intros x y. split; [by left|]. by intros [?|?%elem_of_nil].
  - pose proof (search_print_doc ts Hwf) as Hsearch.
    destruct (redex_doc ts) as [[d1 d2]|] eqn:Hredex; cycle 1.
    { simpl. rewrite Hsearch. intros [= <- _].
      rewrite (gates_doc_literals ts) by by apply redex_doc_None.
      split.
      + intros v. split; [by left|]. intros [?|(? & ? & ? & []%elem_of_nil & _)]. done.
      + intros x y. split; [by left|]. by intros [?|?%elem_of_nil]. }
    cbn [reduce]. rewrite Hsearch.
    intros ([[g1 fresh1] s1] & Hstep & Hrest)%bind_Return.
    destruct (redex_doc_digits ts d1 d2 Hwf Hredex) as [[Hne1 Hd1] [Hne2 Hd2]].
    destruct (reduce_step_records _ _ _ _ _ _ _ Hbuilt Hstep)
      as (v1 & v2 & o & Hv1 & Hv2 & Ho & Hvert & Hedge).
    destruct (reduce_step_Return _ _ _ _ _ _ _ Hstep)
      as (v1' & v2' & o' & Hv1' & Hv2' & Ho' & Hlimit & Hfresh1 & Hs1).
    assert (v1' = v1) as -> by congruence. assert (v2' = v2) as -> by congruence.
    assert (o' = o) as -> by congruence.
    cbn [group0 group1 group2] in Hv1, Hv2, Hs1.
    destruct (py_int_digits_Return d1 v1 Hne1 Hd1 Hv1) as [-> Hlen1].
    destruct (py_int_digits_Return d2 v2 Hne2 Hd2 Hv2) as [-> Hlen2].
    pose proof (NAND_value_pos _ _ _ Ho) as Hpos.
    destruct o as [|p|p]; [lia| |lia].
    destruct (decimal_digits p) as (Hnew & Hnewd & Hnewv).
    rewrite replace_print_doc in Hs1 by done. subst fresh1 s1.
    pose proof (reduce_step_decreases _ _ _ _ _ _ _ Hsearch Hstep) as Hless.
    cbn beta iota in Hrest.
    destruct (IH (subst d1 d2 (decimal (Z.pos p)) <$> ts) g1 (fresh + 3)) as [Hvert' Hedge'].
    { apply Forall_fmap. eapply Forall_impl; [exact Hwf|].
      intros t Ht. by apply well_formed_subst. }
    { by eapply reduce_step_built. }
    { lia. }
    { done. }
    pose proof (redex_doc_gates ts d1 d2 Hredex) as Hin.
    pose proof (gates_doc_subst_old d1 d2 (decimal (Z.pos p)) (Z.pos p) Hnewv Ho ts) as Hold.
    pose proof (gates_doc_subst_new d1 d2 (decimal (Z.pos p)) (Z.pos p) Hnewv Ho ts) as Hsub.
    split.
    + intros v. rewrite Hvert', Hvert. split.
      * intros [[?|Hv]|(x & y & o & Hxy & Hg & Hv)].
        -- by left.
        -- right. exists (digits_value 0 d1), (digits_value 0 d2), (Z.pos p). tauto.
        -- right. exists x, y, o. split; [by apply Hsub|done].
      * intros [?|(x & y & o & Hxy & Hg & Hv)]; [by left; left|].
        destruct (Hold _ Hxy) as [[= -> ->]|Hxy'].
        -- left. right. assert (o = Z.pos p) as -> by congruence. tauto.
        -- right. by exists x, y, o.
    + intros x y. rewrite Hedge', Hedge. split.
      * intros [[?|[-> ->]]|Hxy]; [by left|by right|]. right. by apply Hsub.
      * intros [?|Hxy]; [by left; left|].
        destruct (Hold _ Hxy) as [[= -> ->]|Hxy']; [left; by right|by right].
Qed.

(** X19.  For well-formed operands on which [parse_input] returns, the
    graph records exactly the groups of the input: a value is held by a
    vertex exactly when it is the value of an operand of a group or the
    output of a group, and there is an edge from a node holding [x] to a
    node holding [y] exactly when some group has operands worth [x] and
    [y], in this order. *)
Theorem parse_input_graph_records (ts : list term) (g : Graph) (z : Z) :
  Forall well_formed ts →
  parse_input (string_of_list_ascii (print_doc ts)) = Return (g, z) →
  (∀ v, vertex_of_value g v ↔
        ∃ x y o, (Some x, Some y) ∈ gates_doc ts ∧ NAND_value x y = Some o ∧
                 (v = x ∨ v = y ∨ v = o)) ∧
  (∀ x y, edge_of_values g x y ↔ (Some x, Some y) ∈ gates_doc ts).
Proof.
  intros Hwf. rewrite parse_input_text. unfold parse_text.
  intros ([g1 s1] & Hloop & Hrest)%bind_Return.
  apply bind_Return in Hrest as (z1 & _ & Hrest).
  apply bind_Return in Hrest as (printed & _ & [= <- _]).
  destruct (reduce_doc_records _ _ _ _ _ _ Hwf built_init (le_n _) Hloop) as [Hvert Hedge].
  split.
  - intros v. rewrite Hvert. split; [|by right].
    intros [(n & Hn & _)|?]; [|done]. by apply not_elem_of_empty in Hn.
  - intros x y. rewrite Hedge. split; [|by right].
    intros [(n1 & n2 & dests & Hl & _)|?]; [|done].
    simpl in Hl. by rewrite lookup_empty in Hl.
Qed.

Lemma parse_input_graph_records_witness :
  let ts := [Nand (Lit (list_ascii_of_string "1")) (Lit (list_ascii_of_string "2"))] in
  let g := mkGraph {[mkNode 0 1; mkNode 1 2; mkNode 2 15]}
             {[mkNode 0 1 := {[mkNode 1 2]}; mkNode 1 2 := ∅; mkNode 2 15 := ∅]} in
  (∀ v, vertex_of_value g v ↔
        ∃ x y o, (Some x, Some y) ∈ gates_doc ts ∧ NAND_value x y = Some o ∧
                 (v = x ∨ v = y ∨ v = o)) ∧
  (∀ x y, edge_of_values g x y ↔ (Some x, Some y) ∈ gates_doc ts).
Proof.
  apply (parse_input_graph_records
           [Nand (Lit (list_ascii_of_string "1")) (Lit (list_ascii_of_string "2"))]
           _ 15%Z).
  - repeat constructor; done.
  - vm_compute. reflexivity.
Defined.

(** X20.  On a graph built through the interface, a call of [add_node]
    that returns makes the value of the node a vertex value, adds no other
    and changes no edge; a call of [add_edge] that returns adds the edge
    between the values of its two inputs, no other, and no vertex. *)
Theorem built_operations_by_value (g g' : Graph) :
  built g →
  (∀ node ignore_errors,
     add_node g node ignore_errors = Return g' →
     (∀ v, vertex_of_value g' v ↔ vertex_of_value g v ∨ v = value node) ∧
     (∀ x y, edge_of_values g' x y ↔ edge_of_values g x y)) ∧
  (∀ edge,
     add_edge g edge = Return g' →
     (∀ v, vertex_of_value g' v ↔ vertex_of_value g v) ∧
     (∀ x y, edge_of_values g' x y ↔
             edge_of_values g x y ∨
             (x = value (input_a edge) ∧ y = value (input_b edge)))).
Proof.
  intros (_ & Hdom & _)%built_facts. split.
  - intros node ignore_errors Hadd. by apply (add_node_values g node ignore_errors).
  - intros edge Hadd. destruct (add_edge_values g edge g' Hadd) as [Hnodes Hedges].
    split; [|done]. intros v. unfold vertex_of_value. by rewrite Hnodes.
Qed.

Lemma built_operations_by_value_witness :
  let g := mkGraph {[mkNode 0 1; mkNode 1 2]} {[mkNode 0 1 := ∅; mkNode 1 2 := ∅]} in
  let g' := mkGraph {[mkNode 0 1; mkNode 1 2]}
              {[mkNode 0 1 := {[mkNode 1 2]}; mkNode 1 2 := ∅]} in
  (∀ v, vertex_of_value g' v ↔ vertex_of_value g v) ∧
  (∀ x y, edge_of_values g' x y ↔ edge_of_values g x y ∨ (x = 1%Z ∧ y = 2%Z)).
Proof.
  apply (proj2 (built_operations_by_value
                  (mkGraph {[mkNode 0 1; mkNode 1 2]} {[mkNode 0 1 := ∅; mkNode 1 2 := ∅]})
                  (mkGraph {[mkNode 0 1; mkNode 1 2]}
                     {[mkNode 0 1 := {[mkNode 1 2]}; mkNode 1 2 := ∅]})
                  ltac:(apply (built_add_node (mkGraph {[mkNode 0 1]} {[mkNode 0 1 := ∅]})
                                 (mkNode 1 2) false);
                        [apply (built_add_node Graph_init (mkNode 0 1) false);
                           [apply built_init|vm_compute; reflexivity]
                        |vm_compute; reflexivity]))
           (NAND_init (mkNode 0 1) (mkNode 1 2))).
  vm_compute. reflexivity.
Defined.
